(** * homelabctl: the generation pipeline, embedded and verified

    A shallow embedding of the Go packages [categories], [stacks],
    [compose], [inventory] and [pipeline] of homelabctl, and the theorems
    that relate them to the natural-language specification.

    Conventions of the embedding:
    - a Go [map[string]T] is a [gmap string T]; reading an absent key
      yields the zero value of [T], written out at each use;
    - a Go [range] over a map visits the entries in an order the language
      leaves unspecified: every function that ranges over a map takes a
      [MapOrder], and the theorems hold for all of them;
    - [interface{}] values that come out of YAML are the inductive [Value];
    - an [error] is a value of the inductive [Error], one constructor per
      [fmt.Errorf] or [errors.New] site, carrying the format arguments;
    - the package-level registry of categories and the files on disk are
      threaded explicitly. *)

From stdpp Require Import gmap strings list fin_maps sorting pretty relations.
From Stdlib Require Import ZArith Lia Ascii.

Set Warnings "-register-all,-clear-no-such-hyp".
Set Default Proof Using "Type".

Open Scope string_scope.
Open Scope Z_scope.
Open Scope list_scope.

(** ** Values decoded from YAML *)

Inductive Value : Type :=
  | VNull
  | VBool (b : bool)
  | VInt (z : Z)
  | VStr (s : string)
  | VList (l : list Value)
  | VMap (m : gmap string Value).

(** ** Iteration order of [range] over a map *)

Record MapOrder : Type := {
  range : ∀ V : Type, gmap string V → list (string * V);
  range_perm : ∀ (V : Type) (m : gmap string V), range V m ≡ₚ map_to_list m
}.
Arguments range _ {V} _.

(** The order in which stdpp enumerates a map. *)
Definition stored_order : MapOrder :=
  {| range := λ V m, map_to_list m;
     range_perm := λ V m, reflexivity (map_to_list m) |}.

(** The opposite order. *)
Definition reversed_order : MapOrder :=
  {| range := λ V m, reverse (map_to_list m);
     range_perm := λ V m, reverse_Permutation (map_to_list m) |}.

(** [for k, v := range src { dst[k] = v }] *)
Definition assign_all {V} (O : MapOrder) (src dst : gmap string V) : gmap string V :=
  foldl (λ acc kv, <[kv.1 := kv.2]> acc) dst (range O src).

(** ** Errors and results *)

(** Package [errors]: an error with suggestions and context lines. *)
Module errors.

Record Report : Type := {
  Message : string;
  Suggestions : list string;
  Context : list string
}.

Definition New (message : string) (suggestions : list string) : Report :=
  {| Message := message; Suggestions := suggestions; Context := [] |}.

Definition WithContext (r : Report) (context : list string) : Report :=
  {| Message := Message r; Suggestions := Suggestions r;
     Context := Context r ++ context |}.

(** The loop of [DependencyCycle] over [i], from [i] on; [first] is
    [cycle[0]]. *)
Fixpoint cycle_lines (first : string) (rest : list string) : list string :=
  match rest with
  | [] => []
  | [x] => ["  " +:+ x +:+ " → " +:+ first +:+ " (cycle!)"]
  | x :: (y :: _) as tl => ("  " +:+ x +:+ " → " +:+ y) :: cycle_lines first tl
  end.

Definition DependencyCycle (cycle : list string) : Report :=
  let context := "Dependency cycle detected:" :: cycle_lines (default "" (head cycle)) cycle in
  let suggestions :=
    "Remove one of the dependencies to break the cycle"
    :: ((λ stack, "Edit: stacks/" +:+ stack +:+ "/stack.yaml") <$> cycle) in
  WithContext (New "circular dependency detected" suggestions) context.

End errors.

Inductive Error : Type :=
  (* an *errors.Error *)
  | ErrReport (r : errors.Report)
  (* stacks.LoadStack *)
  | ErrReadStack (name : string)
  | ErrParseStack (name : string)
  | ErrMissingName (name : string)
  | ErrNameMismatch (dir name : string)
  | ErrMissingCategory (name : string)
  | ErrInvalidCategory (category name : string)
  | ErrNoServices (name : string)
  (* stacks.ValidateDependencies *)
  | ErrNotEnabled (name dep : string)
  (* categories.Get *)
  | ErrUnknownCategory (name : string)
  (* stacks.ValidateCategoryDependencies *)
  | ErrInvalidCategoryDependency
      (stackName stackDisplay : string) (stackOrder : Z)
      (depName depDisplay : string) (depOrder : Z)
      (stackCatName depCatName : string)
  (* compose.MergeComposeFiles *)
  | ErrReadCompose (file : string)
  | ErrParseCompose (file : string)
  | ErrDuplicateService (name : string)
  (* inventory *)
  | ErrReadVars
  | ErrParseVars
  | ErrReadState
  | ErrParseState
  | ErrWriteState
  | ErrAlreadyDisabled (service : string)
  | ErrNotDisabled (service : string)
  (* render *)
  | ErrRender (template : string)
  | ErrEnsureDir (path : string)
  (* pipeline *)
  | ErrNoStacksEnabled
  | ErrWrap (prefix : string) (cause : Error).

Inductive Result (A : Type) : Type :=
  | Ok (a : A)
  | Err (e : Error).
Arguments Ok {A} a.
Arguments Err {A} e.

(** ** Package [categories] *)

Module categories.

Record Category : Type := {
  Name : string;
  DisplayName : string;
  Order : Z;
  Color : string;
  Defaults : gmap string Value
}.

Definition defaultMetadata (name : string) : option Category :=
  if decide (name = "core") then
    Some {| Name := "core"; DisplayName := "Core"; Order := 1; Color := "blue";
            Defaults := <["restart" := VStr "unless-stopped"]>
                        (<["security_opt" := VList [VStr "no-new-privileges:true"]]> ∅) |}
  else if decide (name = "infrastructure") then
    Some {| Name := "infrastructure"; DisplayName := "Infrastructure"; Order := 2;
            Color := "cyan";
            Defaults := <["restart" := VStr "unless-stopped"]>
                        (<["security_opt" := VList [VStr "no-new-privileges:true"]]> ∅) |}
  else if decide (name = "monitoring") then
    Some {| Name := "monitoring"; DisplayName := "Monitoring"; Order := 3;
            Color := "green";
            Defaults := <["restart" := VStr "unless-stopped"]> ∅ |}
  else if decide (name = "automation") then
    Some {| Name := "automation"; DisplayName := "Automation"; Order := 4;
            Color := "yellow";
            Defaults := <["restart" := VStr "unless-stopped"]> ∅ |}
  else if decide (name = "media") then
    Some {| Name := "media"; DisplayName := "Media"; Order := 5; Color := "magenta";
            Defaults := <["restart" := VStr "unless-stopped"]>
                        (<["environment" :=
                             VMap (<["PUID" := VStr "1000"]>
                                   (<["PGID" := VStr "1000"]> ∅))]> ∅) |}
  else if decide (name = "tools") then
    Some {| Name := "tools"; DisplayName := "Tools"; Order := 6; Color := "white";
            Defaults := ∅ |}
  else None.

(** [strings.Split(name, "-")] *)
Fixpoint split_dash (s : string) : list string :=
  match s with
  | EmptyString => [EmptyString]
  | String c rest =>
      if decide (c = "-"%char) then EmptyString :: split_dash rest
      else match split_dash rest with
           | [] => [String c EmptyString]
           | w :: ws => String c w :: ws
           end
  end.

(** [strings.ToUpper(word[:1])]: the first byte alone. An ASCII lower-case
    letter is shifted to upper case, another ASCII byte is kept, and a byte
    above 0x7f, which is no valid UTF-8 on its own, comes back as the
    encoding of U+FFFD. *)
Definition upper_first_byte (c : ascii) : string :=
  let n := nat_of_ascii c in
  if decide (97 ≤ n ≤ 122)%nat then String (ascii_of_nat (n - 32)) EmptyString
  else if decide (n < 128)%nat then String c EmptyString
  else String (ascii_of_nat 239) (String (ascii_of_nat 191)
         (String (ascii_of_nat 189) EmptyString)).

Definition capitalize (word : string) : string :=
  match word with
  | EmptyString => EmptyString
  | String c rest => upper_first_byte c +:+ rest
  end.

(** [strings.Join(words, " ")] *)
Fixpoint join_space (words : list string) : string :=
  match words with
  | [] => EmptyString
  | [w] => w
  | w :: ws => w +:+ " " +:+ join_space ws
  end.

Definition toDisplayName (name : string) : string :=
  join_space (capitalize <$> split_dash name).

(** The category [RegisterCategory] stores for a name seen for the first
    time. *)
Definition newCategory (name : string) : Category :=
  match defaultMetadata name with
  | Some meta => meta
  | None => {| Name := name; DisplayName := toDisplayName name; Order := 999;
               Color := "white"; Defaults := ∅ |}
  end.

(** The registry [discoveredCategories]. *)
Abbreviation Registry := (gmap string Category).

Definition RegisterCategory (name : string) (reg : Registry) : Registry :=
  match reg !! name with
  | Some _ => reg
  | None => <[name := newCategory name]> reg
  end.

Definition Reset : Registry := ∅.

Definition Get (name : string) (reg : Registry) : Result Category :=
  match reg !! name with
  | Some cat => Ok cat
  | None => Err (ErrUnknownCategory name)
  end.

Definition GetOrDefault (name : string) (reg : Registry) : option Category * Registry :=
  match Get name reg with
  | Ok cat => (Some cat, reg)
  | Err _ => let reg' := RegisterCategory name reg in (reg' !! name, reg')
  end.

Definition ValidCategoryName (name : string) : bool :=
  bool_decide (name ≠ "").

Definition GetOrder (name : string) (reg : Registry) : Z * Registry :=
  match GetOrDefault name reg with
  | (Some cat, reg') => (Order cat, reg')
  | (None, reg') => (999, reg')
  end.

End categories.

(** ** Computations over the category registry

    [LoadStack] and [GetOrder] write to the package-level registry, and
    what they wrote stays when the caller returns an error. *)

Definition M (A : Type) : Type :=
  categories.Registry → Result A * categories.Registry.

Definition retM {A} (a : A) : M A := λ reg, (Ok a, reg).
Definition failM {A} (e : Error) : M A := λ reg, (Err e, reg).
Definition bindM {A B} (c : M A) (k : A → M B) : M B :=
  λ reg, match c reg with
         | (Ok a, reg') => k a reg'
         | (Err e, reg') => (Err e, reg')
         end.
Definition liftM {A} (r : Result A) : M A := λ reg, (r, reg).

Notation "'do' x <- c ; k" := (bindM c (λ x, k))
  (at level 10, x name, c at level 100, k at level 200).

(** [for _, x := range l { if err := f(x); err != nil { return err } }] *)
Fixpoint forM {A} (f : A → M unit) (l : list A) : M unit :=
  match l with
  | [] => retM ()
  | x :: rest => do _ <- f x; forM f rest
  end.

(** ** Package [stacks] *)

Module stacks.

Record Stack : Type := {
  Name : string;
  Category : string;
  Requires : list string;
  Services : list string;
  Vars : gmap string Value;
  PersistenceVolumes : list string;
  PersistencePaths : list string
}.

(** What [os.ReadFile] followed by [yaml.Unmarshal] gives for
    [stacks/<name>/stack.yaml]; a name without entry has no file. *)
Inductive ManifestFile : Type :=
  | Unparseable
  | Manifest (stack : Stack).

Abbreviation Disk := (gmap string ManifestFile).

Definition withServices (stack : Stack) (services : list string) : Stack :=
  {| Name := Name stack; Category := Category stack; Requires := Requires stack;
     Services := services; Vars := Vars stack;
     PersistenceVolumes := PersistenceVolumes stack;
     PersistencePaths := PersistencePaths stack |}.

Section with_disk.
Variable O : MapOrder.
Variable disk : Disk.

Definition LoadStack (name : string) : M Stack := λ reg,
  match disk !! name with
  | None => (Err (ErrReadStack name), reg)
  | Some Unparseable => (Err (ErrParseStack name), reg)
  | Some (Manifest stack) =>
      if decide (Name stack = "") then (Err (ErrMissingName name), reg)
      else if decide (Name stack ≠ name) then
        (Err (ErrNameMismatch name (Name stack)), reg)
      else if decide (Category stack = "") then (Err (ErrMissingCategory name), reg)
      else if negb (categories.ValidCategoryName (Category stack)) then
        (Err (ErrInvalidCategory (Category stack) name), reg)
      else
        let reg' := categories.RegisterCategory (Category stack) reg in
        let stack' :=
          if decide (length (Services stack) = 0%nat ∧ (0 < size (Vars stack))%nat)
          then withServices stack ((range O (Vars stack)).*1)
          else stack in
        if decide (length (Services stack') = 0%nat) then
          (Err (ErrNoServices name), reg')
        else if decide (name ∈ Requires stack') then
          (Err (ErrReport (errors.New
                  ("stack '" +:+ name +:+ "' cannot depend on itself")
                  ["Edit: stacks/" +:+ name +:+ "/stack.yaml";
                   "Remove '" +:+ name +:+ "' from requires list"])), reg')
        else (Ok stack', reg')
  end.

(** *** variables.go *)

Definition MergeVariables (stackVars inventoryVars secrets : gmap string Value)
  : gmap string Value :=
  let merged := ∅ in
  let merged := assign_all O stackVars merged in
  let merged := assign_all O inventoryVars merged in
  let merged := assign_all O secrets merged in
  merged.

Definition MergeWithCategoryDefaults (stackName : string)
    (stackVars inventoryVars secrets : gmap string Value) : M (gmap string Value) :=
  do stack <- LoadStack stackName;
  do cat <- (λ reg, (categories.Get (Category stack) reg, reg));
  let merged := ∅ in
  let merged := assign_all O (categories.Defaults cat) merged in
  let merged := assign_all O stackVars merged in
  let merged := assign_all O inventoryVars merged in
  let merged := assign_all O secrets merged in
  retM merged.

Definition EnabledStacksMap (stacks : list string) : gmap string bool :=
  foldl (λ m s, <[s := true]> m) ∅ stacks.

(** [enabled[dep]], false for an absent key *)
Definition is_enabled (enabled : gmap string bool) (dep : string) : bool :=
  default false (enabled !! dep).


(** *** cycles.go *)

Inductive VisitState : Type := stateUnvisited | stateVisiting | stateVisited.

#[global] Instance VisitState_eq_dec : EqDecision VisitState.
Proof. solve_decision. Defined.

Record CycleDetector : Type := {
  graph : gmap string (list string);
  state : gmap string VisitState;
  path : list string
}.

(** [d.state[n]], the zero value [stateUnvisited] for an absent key *)
Definition state_of (d : CycleDetector) (n : string) : VisitState :=
  default stateUnvisited (state d !! n).

(** [d.graph[n]], the nil slice for an absent key *)
Definition graph_of (d : CycleDetector) (n : string) : list string :=
  default [] (graph d !! n).

Definition set_state (n : string) (s : VisitState) (d : CycleDetector) : CycleDetector :=
  {| graph := graph d; state := <[n := s]> (state d); path := path d |}.

Definition push (n : string) (d : CycleDetector) : CycleDetector :=
  {| graph := graph d; state := state d; path := path d ++ [n] |}.

(** [d.path = d.path[:len(d.path)-1]] *)
Definition pop (d : CycleDetector) : CycleDetector :=
  {| graph := graph d; state := state d;
     path := take (length (path d) - 1) (path d) |}.

(** The adjacency list is filled by loading each stack in turn. *)
Fixpoint build_detector (stackNames : list string) (d : CycleDetector)
  : M CycleDetector :=
  match stackNames with
  | [] => retM d
  | name :: rest =>
      do stack <- LoadStack name;
      build_detector rest
        {| graph := <[name := Requires stack]> (graph d);
           state := <[name := stateUnvisited]> (state d);
           path := path d |}
  end.

Definition NewCycleDetector (stackNames : list string) : M CycleDetector :=
  build_detector stackNames {| graph := ∅; state := ∅; path := [] |}.

Definition extractCycle (d : CycleDetector) (backNode : string) : list string :=
  match list_find (λ node, node = backNode) (path d) with
  | None => path d
  | Some (cycleStart, _) => drop cycleStart (path d)
  end.

(** The loop of [dfs] over the dependencies of a node; [rec] is [dfs]
    itself. The outer [None] is a recursion that ran out of fuel. *)
Fixpoint visit_deps
    (rec : string → CycleDetector → option (option (list string) * CycleDetector))
    (deps : list string) (d : CycleDetector)
  : option (option (list string) * CycleDetector) :=
  match deps with
  | [] => Some (None, d)
  | dep :: rest =>
      match state_of d dep with
      | stateVisiting => Some (Some (extractCycle d dep), d)
      | stateUnvisited =>
          match rec dep d with
          | None => None
          | Some (Some cycle, d') => Some (Some cycle, d')
          | Some (None, d') => visit_deps rec rest d'
          end
      | stateVisited => visit_deps rec rest d
      end
  end.

Fixpoint dfs (fuel : nat) (node : string) (d : CycleDetector)
  : option (option (list string) * CycleDetector) :=
  match fuel with
  | 0%nat => None
  | S fuel' =>
      let d := push node (set_state node stateVisiting d) in
      match visit_deps (dfs fuel') (graph_of d node) d with
      | None => None
      | Some (Some cycle, d') => Some (Some cycle, d')
      | Some (None, d') => Some (None, pop (set_state node stateVisited d'))
      end
  end.

(** Every name the search can reach: the keys of the graph and the names
    in the adjacency lists. *)
Definition universe (g : gmap string (list string)) : gset string :=
  dom g ∪ list_to_set (concat (map_to_list g).*2).

(** Each call of [dfs] takes one more name out of [stateUnvisited], so the
    recursion is never deeper than the number of names. *)
Definition dfs_fuel (d : CycleDetector) : nat := S (size (universe (graph d))).

(** The loop of [DetectCycles] over the nodes still to try. *)
Fixpoint detect_from (fuel : nat) (nodes : list string)
    (cycles : list (list string)) (d : CycleDetector)
  : option (list (list string) * CycleDetector) :=
  match nodes with
  | [] => Some (cycles, d)
  | node :: rest =>
      match state_of d node with
      | stateUnvisited =>
          match dfs fuel node d with
          | None => None
          | Some (Some cycle, d') => detect_from fuel rest (cycles ++ [cycle]) d'
          | Some (None, d') => detect_from fuel rest cycles d'
          end
      | _ => detect_from fuel rest cycles d
      end
  end.

Definition DetectCycles (d : CycleDetector) : option (list (list string)) :=
  fst <$> detect_from (dfs_fuel d) (range O (graph d)).*1 [] d.

(** *** stacks.go *)

(** The loop over [stack.Requires] in [ValidateDependencies]. *)
Fixpoint check_requires (enabled : gmap string bool) (name : string)
    (requires : list string) : Result unit :=
  match requires with
  | [] => Ok ()
  | dep :: rest =>
      if is_enabled enabled dep then check_requires enabled name rest
      else Err (ErrNotEnabled name dep)
  end.

(** The outer [None] is a cycle search that ran out of fuel. *)
Definition ValidateDependencies (enabledStacks : list string)
  : categories.Registry → option (Result unit * categories.Registry) := λ reg,
  let enabled := EnabledStacksMap enabledStacks in
  match forM (λ name, do stack <- LoadStack name;
                      liftM (check_requires enabled name (Requires stack)))
             enabledStacks reg with
  | (Err e, reg') => Some (Err e, reg')
  | (Ok _, reg') =>
      match NewCycleDetector enabledStacks reg' with
      | (Err e, reg'') => Some (Err e, reg'')
      | (Ok detector, reg'') =>
          match DetectCycles detector with
          | None => None
          | Some [] => Some (Ok (), reg'')
          | Some (cycle :: _) =>
              Some (Err (ErrReport (errors.DependencyCycle cycle)), reg'')
          end
      end
  end.

(** *** category_validation.go *)

(** The three ways out the error message offers. *)
Definition category_resolutions
    (stackName depName stackCatName depCatName : string) : list string :=
  ["  - Move " +:+ depName +:+ " to category '" +:+ stackCatName +:+ "' or lower";
   "  - Or move " +:+ stackName +:+ " to category '" +:+ depCatName +:+ "' or higher";
   "  - Or remove the dependency from stacks/" +:+ stackName +:+ "/stack.yaml"].

Definition newline : string := String (ascii_of_nat 10) EmptyString.

Fixpoint join_lines (lines : list string) : string :=
  match lines with
  | [] => EmptyString
  | [l] => l
  | l :: rest => l +:+ newline +:+ join_lines rest
  end.

(** The text [fmt.Errorf] builds for a category violation. *)
Definition category_dependency_text
    (stackName stackDisplay : string) (stackOrder : Z)
    (depName depDisplay : string) (depOrder : Z)
    (stackCatName depCatName : string) : string :=
  join_lines
    (("invalid category dependency in stack '" +:+ stackName +:+ "': "
      +:+ stackName +:+ " (category: " +:+ stackDisplay +:+ ", order: "
      +:+ pretty stackOrder +:+ ") depends on " +:+ depName +:+ " (category: "
      +:+ depDisplay +:+ ", order: " +:+ pretty depOrder +:+ ")")
     :: "Category order: Infrastructure(1) → Automation(2) → Media(3) → Other(4)"
     :: "To resolve:"
     :: category_resolutions stackName depName stackCatName depCatName).

Definition invalid_category_dependency (stackName : string)
    (stackCat : categories.Category) (depName : string)
    (depCat : categories.Category) : Error :=
  ErrInvalidCategoryDependency
    stackName (categories.DisplayName stackCat) (categories.Order stackCat)
    depName (categories.DisplayName depCat) (categories.Order depCat)
    (categories.Name stackCat) (categories.Name depCat).

(** The loop over [stack.Requires]: a dependency that does not load, or
    whose category is unknown, is passed over. *)
Fixpoint check_category_deps (stackName : string) (stackCat : categories.Category)
    (requires : list string) : M unit := λ reg,
  match requires with
  | [] => (Ok (), reg)
  | depName :: rest =>
      match LoadStack depName reg with
      | (Err _, reg') => check_category_deps stackName stackCat rest reg'
      | (Ok depStack, reg') =>
          match categories.Get (Category depStack) reg' with
          | Err _ => check_category_deps stackName stackCat rest reg'
          | Ok depCat =>
              if decide (categories.Order depCat > categories.Order stackCat)
              then (Err (invalid_category_dependency stackName stackCat
                           depName depCat), reg')
              else check_category_deps stackName stackCat rest reg'
          end
      end
  end.

Definition ValidateCategoryDependencies (stackNames : list string) : M unit :=
  forM (λ stackName,
          do stack <- LoadStack stackName;
          do stackCat <- (λ reg, (categories.Get (Category stack) reg, reg));
          check_category_deps stackName stackCat (Requires stack))
       stackNames.

(** *** ordering.go *)

Record StackWithCategory : Type := {
  SName : string;
  SCategory : string;
  SOrder : Z
}.

(** The comparison handed to [sort.Slice]; [<] on Go strings compares
    byte by byte. *)
Definition less (a b : StackWithCategory) : bool :=
  if decide (SOrder a ≠ SOrder b) then bool_decide (SOrder a < SOrder b)
  else String.ltb (SName a) (SName b).

(** [sort.Slice] of the Go library: the slice comes back ordered by
    [less], no later element less than an earlier one. The library does
    not promise to keep equal elements in their order; here elements that
    compare equal are equal (see [sort_Slice_any]). *)
Definition not_after {A} (less : A → A → bool) : relation A :=
  λ a b, less b a = false.

#[global] Instance not_after_dec {A} (less : A → A → bool) :
  RelDecision (not_after less).
Proof. intros a b. unfold not_after. apply _. Defined.

Definition sort_Slice {A} (less : A → A → bool) (l : list A) : list A :=
  merge_sort (not_after less) l.

Fixpoint load_infos (stackNames : list string) (stacksInfo : list StackWithCategory)
  : M (list StackWithCategory) :=
  match stackNames with
  | [] => retM stacksInfo
  | name :: rest =>
      do stack <- LoadStack name;
      do order <- (λ reg, let '(o, reg') := categories.GetOrder (Category stack) reg
                          in (Ok o, reg'));
      load_infos rest
        (stacksInfo ++ [{| SName := name; SCategory := Category stack;
                           SOrder := order |}])
  end.

Definition SortByCategory (stackNames : list string) : M (list string) :=
  do stacksInfo <- load_infos stackNames [];
  retM (SName <$> sort_Slice less stacksInfo).

End with_disk.
End stacks.


(** ** Package [compose] *)

Module compose.

Record ComposeFile : Type := {
  Services : gmap string Value;
  Volumes : gmap string Value;
  Networks : gmap string Value
}.

(** What [os.ReadFile] followed by [yaml.Unmarshal] gives for a path; a
    path without entry cannot be read. *)
Inductive ComposeDoc : Type :=
  | Unparseable
  | Parsed (compose : ComposeFile).

Abbreviation Files := (gmap string ComposeDoc).

(** The lines written to standard error. *)
Inductive Warning : Type :=
  | WarnDuplicateVolume (name file : string)
  | WarnVolumeConflict (name : string) (first ignored : Value)
  | WarnDuplicateNetwork (name file : string).

(** The [external] flag of a network: true only for a mapping whose
    [external] key holds the boolean true. *)
Definition isExternal (net : Value) : bool :=
  match net with
  | VMap netMap =>
      match netMap !! "external" with
      | Some (VBool ext) => ext
      | _ => false
      end
  | _ => false
  end.

Definition with_services (c : ComposeFile) (s : gmap string Value) : ComposeFile :=
  {| Services := s; Volumes := Volumes c; Networks := Networks c |}.
Definition with_volumes (c : ComposeFile) (v : gmap string Value) : ComposeFile :=
  {| Services := Services c; Volumes := v; Networks := Networks c |}.
Definition with_networks (c : ComposeFile) (n : gmap string Value) : ComposeFile :=
  {| Services := Services c; Volumes := Volumes c; Networks := n |}.

Section merge.
Variable O : MapOrder.
Variable disk : Files.
(** Whether two volume definitions print to different pointers and
    marshal to different YAML: both tests of the source are outside the
    embedding, and only a warning depends on them. *)
Variable differ : Value → Value → bool.

(** The loop over [compose.Services]; the first name already merged ends
    the whole merge. *)
Fixpoint merge_services (entries : list (string * Value)) (merged : ComposeFile)
  : Result ComposeFile :=
  match entries with
  | [] => Ok merged
  | (name, svc) :: rest =>
      match Services merged !! name with
      | Some _ => Err (ErrDuplicateService name)
      | None => merge_services rest (with_services merged (<[name := svc]> (Services merged)))
      end
  end.

(** One turn of the loop over [compose.Volumes]. *)
Definition merge_volume (file : string) (st : ComposeFile * list Warning)
    (entry : string * Value) : ComposeFile * list Warning :=
  let '(merged, log) := st in
  let '(name, vol) := entry in
  match Volumes merged !! name with
  | Some existing =>
      let log := log ++ [WarnDuplicateVolume name file] in
      let log := if differ existing vol
                 then log ++ [WarnVolumeConflict name existing vol] else log in
      (merged, log)
  | None => (with_volumes merged (<[name := vol]> (Volumes merged)), log)
  end.

(** One turn of the loop over [compose.Networks]. *)
Definition merge_network (file : string) (st : ComposeFile * list Warning)
    (entry : string * Value) : ComposeFile * list Warning :=
  let '(merged, log) := st in
  let '(name, net) := entry in
  match Networks merged !! name with
  | Some existing =>
      let newIsExternal := isExternal net in
      let existingIsExternal := isExternal existing in
      if newIsExternal && negb existingIsExternal then (merged, log)
      else if negb newIsExternal && existingIsExternal then
        (with_networks merged (<[name := net]> (Networks merged)), log)
      else if negb newIsExternal && negb existingIsExternal then
        (merged, log ++ [WarnDuplicateNetwork name file])
      else (merged, log)
  | None => (with_networks merged (<[name := net]> (Networks merged)), log)
  end.

(** The loop over [files]. What was written to standard error stays
    written when a later file ends the merge with an error. *)
Fixpoint merge_files (files : list string) (merged : ComposeFile)
    (log : list Warning) : Result ComposeFile * list Warning :=
  match files with
  | [] => (Ok merged, log)
  | file :: rest =>
      match disk !! file with
      | None => (Err (ErrReadCompose file), log)
      | Some Unparseable => (Err (ErrParseCompose file), log)
      | Some (Parsed compose) =>
          match merge_services (range O (Services compose)) merged with
          | Err e => (Err e, log)
          | Ok merged =>
              let st := foldl (merge_volume file) (merged, log)
                          (range O (Volumes compose)) in
              let st := foldl (merge_network file) st
                          (range O (Networks compose)) in
              merge_files rest st.1 st.2
          end
      end
  end.

Definition empty : ComposeFile :=
  {| Services := ∅; Volumes := ∅; Networks := ∅ |}.

Definition MergeComposeFiles (files : list string)
  : Result ComposeFile * list Warning :=
  merge_files files empty [].

(** [disabled[name]], false for an absent key *)
Definition is_disabled (disabled : gmap string bool) (name : string) : bool :=
  default false (disabled !! name).

(** Returns the compose file as the call leaves it and the removed
    names. Deleting the entry the loop stands on leaves the other entries
    to be visited. *)
Definition FilterDisabledServices (compose : ComposeFile)
    (disabledServices : list string) : ComposeFile * list string :=
  if decide (length disabledServices = 0%nat) then (compose, [])
  else
    let disabled := foldl (λ m svc, <[svc := true]> m) ∅ disabledServices in
    foldl (λ st name,
             if is_disabled disabled name
             then (with_services st.1 (delete name (Services st.1)), st.2 ++ [name])
             else st)
          (compose, []) (range O (Services compose)).*1.

End merge.
End compose.

(** ** Package [inventory] *)

Module inventory.

(** A file as the package meets it: absent, present but not readable,
    readable but not the YAML expected, or holding a value. *)
Inductive File (A : Type) : Type :=
  | Missing
  | Unreadable
  | Corrupt
  | Content (a : A).
Arguments Missing {A}.
Arguments Unreadable {A}.
Arguments Corrupt {A}.
Arguments Content {A} a.

(** [inventory/vars.yaml], [inventory/state.yaml] with its list
    [disabled_services], and whether the state file can be written. *)
Record World : Type := {
  vars_file : File (gmap string Value);
  state_file : File (list string);
  state_writable : bool
}.

Definition with_state (w : World) (l : list string) : World :=
  {| vars_file := vars_file w; state_file := Content l;
     state_writable := state_writable w |}.

Definition LoadVars (w : World) : Result (gmap string Value) :=
  match vars_file w with
  | Missing | Unreadable => Err ErrReadVars
  | Corrupt => Err ErrParseVars
  | Content vars => Ok vars
  end.

Definition writeState (DisabledServices : list string) (w : World)
  : Result unit * World :=
  if state_writable w then (Ok (), with_state w DisabledServices)
  else (Err ErrWriteState, w).

Definition LoadState (w : World) : Result (list string) * World :=
  match state_file w with
  | Missing =>
      match writeState [] w with
      | (Err e, w') => (Err e, w')
      | (Ok _, w') => (Ok [], w')
      end
  | Unreadable => (Err ErrReadState, w)
  | Corrupt => (Err ErrParseState, w)
  | Content l => (Ok l, w)
  end.

Definition GetDisabledServices (w : World) : Result (list string) * World :=
  LoadState w.

(** [for _, s := range l { if s == name { ... } }] *)
Fixpoint contains (l : list string) (name : string) : bool :=
  match l with
  | [] => false
  | s :: rest => if decide (s = name) then true else contains rest name
  end.

Definition DisableService (serviceName : string) (w : World)
  : Result unit * World :=
  match LoadState w with
  | (Err e, w') => (Err e, w')
  | (Ok l, w') =>
      if contains l serviceName then (Err (ErrAlreadyDisabled serviceName), w')
      else writeState (l ++ [serviceName]) w'
  end.

(** The loop of [EnableService]: [found] and [newList]. *)
Definition remove_service (serviceName : string) (l : list string)
  : bool * list string :=
  foldl (λ st s, if decide (s = serviceName) then (true, st.2)
                 else (st.1, st.2 ++ [s]))
        (false, []) l.

Definition EnableService (serviceName : string) (w : World)
  : Result unit * World :=
  match LoadState w with
  | (Err e, w') => (Err e, w')
  | (Ok l, w') =>
      let '(found, newList) := remove_service serviceName l in
      if found then writeState newList w'
      else (Err (ErrNotDisabled serviceName), w')
  end.

(** The loop of [MigrateDisabledServices] over the legacy list: an item
    that is a string and not yet in the state is appended. *)
Definition migrate_items (disabled : Value) (l : list string) : list string :=
  match disabled with
  | VList disabledList =>
      foldl (λ acc item,
               match item with
               | VStr s => if contains acc s then acc else acc ++ [s]
               | _ => acc
               end) l disabledList
  | _ => l
  end.

Definition migrated_messages : list string :=
  ["Migrated disabled_services from vars.yaml to state.yaml";
   "You can now manually remove 'disabled_services:' from inventory/vars.yaml"].

(** The third component is what is written to standard error. *)
Definition MigrateDisabledServices (w : World)
  : Result unit * World * list string :=
  match LoadVars w with
  | Err e => (Err e, w, [])
  | Ok vars =>
      match vars !! "disabled_services" with
      | None => (Ok (), w, [])
      | Some disabled =>
          match LoadState w with
          | (Err e, w') => (Err e, w', [])
          | (Ok l, w') =>
              match writeState (migrate_items disabled l) w' with
              | (Err e, w'') => (Err e, w'', [])
              | (Ok _, w'') => (Ok (), w'', migrated_messages)
              end
          end
      end
  end.

(** The operations that write the state file. *)
Inductive Op : Type :=
  | OpDisable (serviceName : string)
  | OpEnable (serviceName : string)
  | OpMigrate.

Definition run_op (op : Op) (w : World) : World :=
  match op with
  | OpDisable s => (DisableService s w).2
  | OpEnable s => (EnableService s w).2
  | OpMigrate => (MigrateDisabledServices w).1.2
  end.

Definition run_ops (ops : list Op) (w : World) : World :=
  foldl (λ w op, run_op op w) w ops.

End inventory.
(** * Notions the statements use *)

(** The manifest [LoadStack] returns does not depend on the registry. *)
Definition load (O : MapOrder) (disk : stacks.Disk) (name : string) : Result stacks.Stack :=
  (stacks.LoadStack O disk name ∅).1.

(** The category [categories.Get] returns for a name once it is
    registered: the one already in the registry, or the one a first
    registration stores. *)
Definition category_of (reg : categories.Registry) (name : string)
  : categories.Category :=
  default (categories.newCategory name) (reg !! name).

(** The order [categories.GetOrder] reports for a name. *)
Definition order_of (reg : categories.Registry) (name : string) : Z :=
  categories.Order (category_of reg name).

(** Two registries that answer alike for every name. *)
Definition same_categories (reg reg' : categories.Registry) : Prop :=
  ∀ name, category_of reg' name = category_of reg name.

(** The requires edges of the stacks in [names] whose target loads keep
    to the category hierarchy. *)
Definition hierarchy_respected (O : MapOrder) (disk : stacks.Disk)
    (reg : categories.Registry) (names : list string) : Prop :=
  ∀ a sa b sb,
    a ∈ names → load O disk a = Ok sa →
    b ∈ stacks.Requires sa → load O disk b = Ok sb →
    order_of reg (stacks.Category sb) ≤ order_of reg (stacks.Category sa).

(** The requires edge from [a] to [b] breaks the hierarchy, and [e] is
    the error that says so. *)
Definition hierarchy_violation (O : MapOrder) (disk : stacks.Disk)
    (reg : categories.Registry) (names : list string) (e : Error) : Prop :=
  ∃ a sa b sb,
    a ∈ names ∧ load O disk a = Ok sa ∧
    b ∈ stacks.Requires sa ∧ load O disk b = Ok sb ∧
    order_of reg (stacks.Category sa) < order_of reg (stacks.Category sb) ∧
    e = stacks.invalid_category_dependency
          a (category_of reg (stacks.Category sa))
          b (category_of reg (stacks.Category sb)).


(** What a shallow merge with precedence secrets, inventory, stack vars,
    category defaults holds at key [k]. *)
Definition layered (defaults stackVars inventoryVars secrets : gmap string Value)
    (k : string) : option Value :=
  match secrets !! k with
  | Some v => Some v
  | None =>
      match inventoryVars !! k with
      | Some v => Some v
      | None =>
          match stackVars !! k with
          | Some v => Some v
          | None => defaults !! k
          end
      end
  end.


(** *** Directed graphs over stack names *)

Section graphs.
Variable E : string → string → Prop.

(** A list of names, each with an edge to the next. *)
Inductive walk : list string → Prop :=
  | walk_nil : walk []
  | walk_one a : walk [a]
  | walk_cons a b l : E a b → walk (b :: l) → walk (a :: b :: l).

(** A directed cycle, listed once around: a walk whose last name has an
    edge back to the first. *)
Definition is_cycle (c : list string) : Prop :=
  walk c ∧ ∃ first lst, head c = Some first ∧ last c = Some lst ∧ E lst first.

Definition has_cycle : Prop := ∃ c, is_cycle c.

End graphs.

(** The edges of an adjacency map. *)
Definition edge (g : gmap string (list string)) (a b : string) : Prop :=
  ∃ deps, g !! a = Some deps ∧ b ∈ deps.

(** [a] is enabled and its manifest requires [b]. *)
Definition requires_edge (O : MapOrder) (disk : stacks.Disk)
    (enabled : list string) (a b : string) : Prop :=
  a ∈ enabled ∧ ∃ stack, load O disk a = Ok stack ∧ b ∈ stacks.Requires stack.

(** The names the cycle search has not entered yet. *)
Definition unvisited (d : stacks.CycleDetector) : gset string :=
  filter (λ n, stacks.state_of d n = stacks.stateUnvisited)
         (stacks.universe (stacks.graph d)).

(** What the cycle search keeps true until it meets a back edge: the
    path is a walk of the graph, the names in [stateVisiting] are those on
    the path, a finished name has only finished successors, and no
    finished name lies on a cycle. *)
Record detector_inv (g : gmap string (list string)) (d : stacks.CycleDetector)
  : Prop := {
  inv_graph : stacks.graph d = g;
  inv_walk : walk (edge g) (stacks.path d);
  inv_visiting : ∀ n,
    stacks.state_of d n = stacks.stateVisiting ↔ n ∈ stacks.path d;
  inv_closed : ∀ u v,
    stacks.state_of d u = stacks.stateVisited → edge g u v →
    stacks.state_of d v = stacks.stateVisited;
  inv_acyclic : ∀ u,
    stacks.state_of d u = stacks.stateVisited → ¬ tc (edge g) u u
}.

(** A name that has left [stateUnvisited] keeps its state. *)
Definition settled (d d' : stacks.CycleDetector) : Prop :=
  ∀ n, stacks.state_of d n ≠ stacks.stateUnvisited →
       stacks.state_of d' n = stacks.state_of d n.

(** What a search from [node] started in [d] promises about its outcome:
    a reported cycle is a cycle of the graph; a search that finds none
    leaves the path as it was and [node] finished. *)
Definition dfs_post (g : gmap string (list string)) (node : string)
    (d : stacks.CycleDetector)
    (out : option (list string) * stacks.CycleDetector) : Prop :=
  match out with
  | (Some cycle, _) => is_cycle (edge g) cycle
  | (None, d') =>
      detector_inv g d' ∧ stacks.path d' = stacks.path d ∧
      stacks.state_of d' node = stacks.stateVisited ∧ settled d d'
  end.

Definition dfs_correct (g : gmap string (list string))
    (rec : string → stacks.CycleDetector →
           option (option (list string) * stacks.CycleDetector)) : Prop :=
  ∀ node d out,
    detector_inv g d → stacks.state_of d node = stacks.stateUnvisited →
    (stacks.path d = [] ∨ ∃ p, last (stacks.path d) = Some p ∧ edge g p node) →
    rec node d = Some out → dfs_post g node d out.

(** With as much fuel as there are names left to enter, the search
    returns, and it enters names without ever giving one back. *)
Definition dfs_returns
    (rec : string → stacks.CycleDetector →
           option (option (list string) * stacks.CycleDetector))
    (bound : nat) : Prop :=
  ∀ node d,
    node ∈ unvisited d → (size (unvisited d) ≤ bound)%nat →
    ∃ out, rec node d = Some out ∧
           stacks.graph out.2 = stacks.graph d ∧
           unvisited out.2 ⊆ unvisited d ∖ {[node]}.


(** Every stack of [names] loads and requires only stacks of [all]. *)
Definition present (O : MapOrder) (disk : stacks.Disk) (all names : list string)
  : Prop :=
  ∀ name, name ∈ names →
    ∃ stack, load O disk name = Ok stack ∧
             ∀ dep, dep ∈ stacks.Requires stack → dep ∈ all.

Definition presentb (O : MapOrder) (disk : stacks.Disk) (all names : list string)
  : bool :=
  forallb (λ name,
    match load O disk name with
    | Ok stack => forallb (λ dep, bool_decide (dep ∈ all)) (stacks.Requires stack)
    | Err _ => false
    end) names.

(** *** Deployment order *)

(** What [SortByCategory] records for a stack that loads. *)
Definition stack_info (O : MapOrder) (disk : stacks.Disk)
    (reg : categories.Registry) (name : string) : stacks.StackWithCategory :=
  match load O disk name with
  | Ok stack =>
      {| stacks.SName := name; stacks.SCategory := stacks.Category stack;
         stacks.SOrder := order_of reg (stacks.Category stack) |}
  | Err _ => {| stacks.SName := name; stacks.SCategory := ""; stacks.SOrder := 999 |}
  end.

(** The order of the category of a stack. *)
Definition deploy_key (O : MapOrder) (disk : stacks.Disk)
    (reg : categories.Registry) (name : string) : Z :=
  stacks.SOrder (stack_info O disk reg name).

(** [a] deploys no later than [b]: a lower category order, or the same
    order and a name that is not greater, byte by byte. *)
Definition deploy_le (O : MapOrder) (disk : stacks.Disk)
    (reg : categories.Registry) (a b : string) : Prop :=
  deploy_key O disk reg a < deploy_key O disk reg b
  ∨ (deploy_key O disk reg a = deploy_key O disk reg b ∧ (a ≤ b)%string).

(** *** Compose fragments *)

(** [frags] are the fragments the files of [files] parse to, one by one. *)
Definition loaded (disk : compose.Files) (files : list string)
    (frags : list compose.ComposeFile) : Prop :=
  Forall2 (λ file c, disk !! file = Some (compose.Parsed c)) files frags.

(** The definition of [name] in the first fragment that has one in the
    section [sel]. *)
Fixpoint first_def (sel : compose.ComposeFile → gmap string Value)
    (frags : list compose.ComposeFile) (name : string) : option Value :=
  match frags with
  | [] => None
  | c :: rest =>
      match sel c !! name with
      | Some v => Some v
      | None => first_def sel rest name
      end
  end.

(** The first definition of network [name] that is not external. *)
Fixpoint first_owned (frags : list compose.ComposeFile) (name : string)
  : option Value :=
  match frags with
  | [] => None
  | c :: rest =>
      match compose.Networks c !! name with
      | Some v => if compose.isExternal v then first_owned rest name else Some v
      | None => first_owned rest name
      end
  end.

(** The network definition the policy keeps: the first that creates the
    network if there is one, the first of all otherwise. *)
Definition chosen_network (frags : list compose.ComposeFile) (name : string)
  : option Value :=
  match first_owned frags name with
  | Some v => Some v
  | None => first_def compose.Networks frags name
  end.

(** Service [name] is defined by two fragments at different places of
    the list. *)
Definition defined_twice (frags : list compose.ComposeFile) (name : string)
  : Prop :=
  ∃ i j ci cj,
    (i < j)%nat ∧ frags !! i = Some ci ∧ frags !! j = Some cj ∧
    is_Some (compose.Services ci !! name) ∧
    is_Some (compose.Services cj !! name).

(** What one more definition of a network makes of the one kept so far. *)
Definition combine_network (existing : option Value) (new : Value) : Value :=
  match existing with
  | None => new
  | Some e =>
      if negb (compose.isExternal new) && compose.isExternal e then new else e
  end.

Fixpoint net_fold (acc : option Value) (frags : list compose.ComposeFile)
    (name : string) : option Value :=
  match frags with
  | [] => acc
  | c :: rest =>
      net_fold (match compose.Networks c !! name with
                | Some v => Some (combine_network acc v)
                | None => acc
                end) rest name
  end.

(** *** The state file *)

(** The disabled services on record; a state file that is absent or
    cannot be used records none. *)
Definition disabled_list (w : inventory.World) : list string :=
  match inventory.state_file w with
  | inventory.Content l => l
  | _ => []
  end.

(** The state file holds [l], or is absent and [l] is empty. *)
Definition state_holds (w : inventory.World) (l : list string) : Prop :=
  inventory.state_file w = inventory.Content l
  ∨ (inventory.state_file w = inventory.Missing ∧ l = []).
(** * Sample repositories *)

Module samples.

Definition manifest (name category : string) (requires services : list string)
    (vars : gmap string Value) : stacks.ManifestFile :=
  stacks.Manifest
    {| stacks.Name := name; stacks.Category := category;
       stacks.Requires := requires; stacks.Services := services;
       stacks.Vars := vars;
       stacks.PersistenceVolumes := []; stacks.PersistencePaths := [] |}.

Definition svc (image : string) : Value :=
  VMap (<["image" := VStr image]> ∅).

(** Stacks [a] and [b] require each other (scenario S3). *)
Definition disk_cycle : stacks.Disk :=
  <["a" := manifest "a" "tools" ["b"] ["a"] (<["a" := svc "a:1"]> ∅)]>
  (<["b" := manifest "b" "tools" ["a"] ["b"] (<["b" := svc "b:1"]> ∅)]> ∅).

(** [proxy] in infrastructure requires [jelly] in media (scenario S4);
    [core] stands alone. *)
Definition disk_tiers : stacks.Disk :=
  <["proxy" := manifest "proxy" "infrastructure" ["jelly"] ["proxy"]
                 (<["proxy" := svc "traefik:3"]> ∅)]>
  (<["jelly" := manifest "jelly" "media" [] ["jelly"]
                 (<["jelly" := svc "jellyfin:10"]> ∅)]>
  (<["core" := manifest "core" "core" [] ["dns"]
                 (<["dns" := svc "dns:1"]> ∅)]> ∅)).

(** [web] requires [db], both in tools; [app] in media requires [web]. *)
Definition disk_chain : stacks.Disk :=
  <["web" := manifest "web" "tools" ["db"] ["nginx"]
               (<["nginx" := svc "nginx:1.27"]> ∅)]>
  (<["db" := manifest "db" "tools" [] ["postgres"]
               (<["postgres" := svc "postgres:16"]> ∅)]>
  (<["app" := manifest "app" "media" ["web"] ["app"]
               (<["app" := VMap (<["port" := VInt 80]>
                                 (<["debug" := VBool false]> ∅))]> ∅)]> ∅)).

(** The manifest of [app] as [LoadStack] returns it. *)
Definition app_stack : stacks.Stack :=
  {| stacks.Name := "app"; stacks.Category := "media";
     stacks.Requires := ["web"]; stacks.Services := ["app"];
     stacks.Vars := <["app" := VMap (<["port" := VInt 80]>
                                     (<["debug" := VBool false]> ∅))]> ∅;
     stacks.PersistenceVolumes := []; stacks.PersistencePaths := [] |}.

(** Inventory and secrets of scenario S2, and one more inventory key. *)
Definition inventory_app : gmap string Value :=
  <["app" := VMap (<["port" := VInt 9000]> ∅)]>
  (<["domain" := VStr "ex.local"]> ∅).

Definition secrets_app : gmap string Value :=
  <["app" := VMap (<["debug" := VBool true]> ∅)]> ∅.

(** Two rendered fragments (scenario S5 with a shared volume and a shared
    network): [core] creates the network [proxy], [mon] refers to it as
    external. *)
Definition core_fragment : compose.ComposeFile :=
  {| compose.Services := <["traefik" := svc "traefik:3"]> ∅;
     compose.Volumes := <["shared" := VMap ∅]> ∅;
     compose.Networks := <["proxy" := VMap ∅]> ∅ |}.

Definition mon_fragment : compose.ComposeFile :=
  {| compose.Services := <["grafana" := svc "grafana:11"]>
                         (<["loki" := svc "loki:3"]> ∅);
     compose.Volumes := <["shared" := VMap (<["driver" := VStr "local"]> ∅)]> ∅;
     compose.Networks := <["proxy" := VMap (<["external" := VBool true]> ∅)]> ∅ |}.

(** A third fragment that defines [traefik] once more (scenario S6). *)
Definition clash_fragment : compose.ComposeFile :=
  {| compose.Services := <["traefik" := svc "traefik:2"]> ∅;
     compose.Volumes := ∅; compose.Networks := ∅ |}.

Definition rendered : compose.Files :=
  <["runtime/core-compose.yml" := compose.Parsed core_fragment]>
  (<["runtime/mon-compose.yml" := compose.Parsed mon_fragment]>
  (<["runtime/clash-compose.yml" := compose.Parsed clash_fragment]>
  (<["runtime/broken-compose.yml" := compose.Unparseable]> ∅))).

(** The volume test of the source never sees two equal definitions
    here. *)
Definition always_differ (existing new : Value) : bool := true.

End samples.
(** * Theorems *)

(** ** Ranging over a map *)

Lemma range_NoDup_keys {V} (O : MapOrder) (m : gmap string V) :
  NoDup (range O m).*1.
Proof.
  rewrite (range_perm O V m). apply NoDup_fst_map_to_list.
Qed.

Lemma range_elem_of {V} (O : MapOrder) (m : gmap string V) k v :
  (k, v) ∈ range O m ↔ m !! k = Some v.
Proof.
  rewrite (range_perm O V m). apply elem_of_map_to_list.
Qed.

Lemma range_keys {V} (O : MapOrder) (m : gmap string V) k :
  k ∈ (range O m).*1 ↔ is_Some (m !! k).
Proof.
  rewrite list_elem_of_fmap. split.
  - intros [[k' v] [-> Hin]]. apply range_elem_of in Hin. eauto.
  - intros [v Hv]. exists (k, v). split; [done|]. by apply range_elem_of.
Qed.

Lemma foldl_insert_union {V} (l : list (string * V)) (acc : gmap string V) :
  NoDup l.*1 →
  foldl (λ acc kv, <[kv.1 := kv.2]> acc) acc l = list_to_map l ∪ acc.
Proof.
  revert acc. induction l as [|[k v] l IH]; intros acc Hnd.
  - simpl. by rewrite (left_id_L ∅ (∪)).
  - rewrite fmap_cons in Hnd. apply NoDup_cons in Hnd as [Hk Hnd].
    rewrite list_to_map_cons. simpl. rewrite IH by done.
    rewrite <- insert_union_l. symmetry. apply insert_union_r.
    by apply not_elem_of_list_to_map.
Qed.

(** Assigning every entry of [src] into [dst] is the left-biased union,
    whatever the order of the visit. *)
Lemma assign_all_union {V} (O : MapOrder) (src dst : gmap string V) :
  assign_all O src dst = src ∪ dst.
Proof.
  unfold assign_all. rewrite foldl_insert_union by apply range_NoDup_keys.
  f_equal. rewrite (list_to_map_proper _ (map_to_list src)).
  - apply list_to_map_to_list.
  - apply range_NoDup_keys.
  - apply range_perm.
Qed.

(** ** The registry only grows *)


Lemma RegisterCategory_lookup_same name reg :
  categories.RegisterCategory name reg !! name
  = Some (category_of reg name).
Proof.
  unfold categories.RegisterCategory, category_of.
  destruct (reg !! name) as [c|] eqn:E; simpl; [done|].
  by rewrite lookup_insert_eq.
Qed.

Lemma RegisterCategory_lookup_Some name reg other c :
  reg !! other = Some c →
  categories.RegisterCategory name reg !! other = Some c.
Proof.
  intros H. unfold categories.RegisterCategory.
  destruct (reg !! name) as [c'|] eqn:E; [done|].
  rewrite lookup_insert_ne; [done|]. intros ->. congruence.
Qed.

Lemma category_of_RegisterCategory name reg other :
  category_of (categories.RegisterCategory name reg) other = category_of reg other.
Proof.
  destruct (decide (name = other)) as [->|Hne].
  - unfold category_of at 1. by rewrite RegisterCategory_lookup_same.
  - unfold category_of, categories.RegisterCategory.
    destruct (reg !! name); [done|]. by rewrite lookup_insert_ne.
Qed.

Lemma order_of_RegisterCategory name reg other :
  order_of (categories.RegisterCategory name reg) other = order_of reg other.
Proof. unfold order_of. by rewrite category_of_RegisterCategory. Qed.

Lemma GetOrder_spec name reg :
  categories.GetOrder name reg
  = (order_of reg name, categories.RegisterCategory name reg).
Proof.
  unfold categories.GetOrder, categories.GetOrDefault, categories.Get, order_of.
  destruct (reg !! name) as [c|] eqn:E; simpl.
  - unfold categories.RegisterCategory, category_of. by rewrite E.
  - by rewrite RegisterCategory_lookup_same.
Qed.

(** ** Loading a manifest *)


Lemma LoadStack_result O disk name reg :
  (stacks.LoadStack O disk name reg).1 = load O disk name.
Proof.
  unfold load, stacks.LoadStack.
  destruct (disk !! name) as [[|stack]|]; try done.
  repeat (case_decide || case_match); done.
Qed.

Lemma LoadStack_registry O disk name reg :
  (stacks.LoadStack O disk name reg).2 = reg ∨
  ∃ c, (stacks.LoadStack O disk name reg).2 = categories.RegisterCategory c reg.
Proof.
  unfold stacks.LoadStack.
  destruct (disk !! name) as [[|stack]|]; try (by left).
  repeat (case_decide || case_match); simpl; eauto.
Qed.

Lemma LoadStack_Ok O disk name reg stack :
  load O disk name = Ok stack →
  stacks.LoadStack O disk name reg
  = (Ok stack, categories.RegisterCategory (stacks.Category stack) reg).
Proof.
  unfold load, stacks.LoadStack.
  destruct (disk !! name) as [[|raw]|]; try done.
  repeat (case_decide || case_match); simpl; try done;
    intros [= <-]; done.
Qed.

Lemma LoadStack_Err O disk name reg e :
  load O disk name = Err e →
  ∃ reg', stacks.LoadStack O disk name reg = (Err e, reg').
Proof.
  intros H. rewrite <- (LoadStack_result O disk name reg) in H.
  destruct (stacks.LoadStack O disk name reg) as [r reg'].
  simpl in H. subst. eauto.
Qed.

Lemma load_Ok_inv O disk name stack :
  load O disk name = Ok stack →
  stacks.Name stack = name ∧ stacks.Category stack ≠ "" ∧
  (name ∉ stacks.Requires stack) ∧ stacks.Services stack ≠ [].
Proof.
  unfold load, stacks.LoadStack.
  destruct (disk !! name) as [[|raw]|]; try done.
  repeat (case_decide || case_match); simpl; try done;
    intros [= <-]; simpl in *; repeat split; try done;
    try (by apply dec_stable); try (by intros E; rewrite E in *).
Qed.

Lemma category_of_LoadStack O disk name reg other :
  category_of (stacks.LoadStack O disk name reg).2 other = category_of reg other.
Proof.
  destruct (LoadStack_registry O disk name reg) as [->|[c ->]]; [done|].
  apply category_of_RegisterCategory.
Qed.

Lemma same_categories_refl reg : same_categories reg reg.
Proof. done. Qed.

Lemma same_categories_trans r1 r2 r3 :
  same_categories r1 r2 → same_categories r2 r3 → same_categories r1 r3.
Proof. intros H12 H23 n. by rewrite H23, H12. Qed.

Lemma same_categories_LoadStack O disk name reg :
  same_categories reg (stacks.LoadStack O disk name reg).2.
Proof. intros n. apply category_of_LoadStack. Qed.

Lemma same_categories_Register name reg :
  same_categories reg (categories.RegisterCategory name reg).
Proof. intros n. apply category_of_RegisterCategory. Qed.

Lemma same_categories_order r1 r2 name :
  same_categories r1 r2 → order_of r2 name = order_of r1 name.
Proof. intros H. unfold order_of. by rewrite H. Qed.

(** ** C1: precedence of the four variable layers *)


Lemma four_layers_lookup O (defaults stackVars inventoryVars secrets : gmap string Value) k :
  assign_all O secrets
    (assign_all O inventoryVars
       (assign_all O stackVars (assign_all O defaults ∅))) !! k
  = layered defaults stackVars inventoryVars secrets k.
Proof.
  rewrite !assign_all_union, (right_id_L ∅ (∪)). unfold layered.
  rewrite !lookup_union.
  destruct (secrets !! k), (inventoryVars !! k), (stackVars !! k),
    (defaults !! k); done.
Qed.

(** The three-layer merge of [MergeVariables] is the same with no
    defaults. *)
Lemma MergeVariables_lookup O stackVars inventoryVars secrets k :
  stacks.MergeVariables O stackVars inventoryVars secrets !! k
  = layered ∅ stackVars inventoryVars secrets k.
Proof.
  unfold stacks.MergeVariables. rewrite <- four_layers_lookup with (O := O).
  by rewrite (assign_all_union O ∅ ∅), (left_id_L ∅ (∪)).
Qed.

(** C1. For a stack whose manifest loads, MergeWithCategoryDefaults returns
    a mapping, and at every top-level key that mapping holds the secrets
    value if the key is in the secrets, else the inventory value if it is
    in the inventory, else the stack-vars value if it is in the stack
    vars, else the value of the defaults of the stack's category; a key
    in none of the four layers is absent. The registry afterwards has the
    stack's category registered. *)
Theorem MergeWithCategoryDefaults_precedence
    O disk reg stackName stackVars inventoryVars secrets stack :
  load O disk stackName = Ok stack →
  ∃ cat merged,
    categories.RegisterCategory (stacks.Category stack) reg
      !! stacks.Category stack = Some cat ∧
    stacks.MergeWithCategoryDefaults O disk stackName stackVars inventoryVars
      secrets reg
    = (Ok merged, categories.RegisterCategory (stacks.Category stack) reg) ∧
    ∀ k, merged !! k
         = layered (categories.Defaults cat) stackVars inventoryVars secrets k.
Proof.
  intros Hload.
  pose proof (RegisterCategory_lookup_same (stacks.Category stack) reg) as Hcat.
  eexists _, _. split; [exact Hcat|]. split.
  - unfold stacks.MergeWithCategoryDefaults, bindM.
    rewrite (LoadStack_Ok _ _ _ _ _ Hload).
    unfold categories.Get. rewrite Hcat. reflexivity.
  - intros k. apply four_layers_lookup.
Qed.

Lemma MergeWithCategoryDefaults_precedence_witness :
  load stored_order samples.disk_chain "app" = Ok samples.app_stack ∧
  ∃ cat merged,
    categories.RegisterCategory "media" ∅ !! "media" = Some cat ∧
    stacks.MergeWithCategoryDefaults stored_order samples.disk_chain "app"
      (stacks.Vars samples.app_stack) samples.inventory_app samples.secrets_app ∅
    = (Ok merged, categories.RegisterCategory "media" ∅) ∧
    ∀ k, merged !! k
         = layered (categories.Defaults cat) (stacks.Vars samples.app_stack)
             samples.inventory_app samples.secrets_app k.
Proof.
  assert (H : load stored_order samples.disk_chain "app" = Ok samples.app_stack)
    by (vm_compute; reflexivity).
  split; [exact H|].
  exact (MergeWithCategoryDefaults_precedence stored_order samples.disk_chain ∅
           "app" (stacks.Vars samples.app_stack) samples.inventory_app
           samples.secrets_app samples.app_stack H).
Defined.

(** Scenario S2 on the code: the secrets value of [app] replaces the
    whole entry, the inventory contributes [domain], the media defaults
    contribute [restart]. *)
Example merge_scenario_S2 :
  ∃ merged reg',
    stacks.MergeWithCategoryDefaults stored_order samples.disk_chain "app"
      (stacks.Vars samples.app_stack) samples.inventory_app samples.secrets_app ∅
    = (Ok merged, reg') ∧
    merged !! "app" = Some (VMap (<["debug" := VBool true]> ∅)) ∧
    merged !! "domain" = Some (VStr "ex.local") ∧
    merged !! "restart" = Some (VStr "unless-stopped") ∧
    merged !! "port" = None.
Proof. eexists _, _. split; [vm_compute; reflexivity|]. by vm_compute. Qed.

(** A manifest that does not load leaves no merged mapping. *)
Lemma MergeWithCategoryDefaults_load_error
    O disk reg stackName stackVars inventoryVars secrets e :
  load O disk stackName = Err e →
  (stacks.MergeWithCategoryDefaults O disk stackName stackVars inventoryVars
     secrets reg).1 = Err e.
Proof.
  intros Hload. destruct (LoadStack_Err _ _ _ reg _ Hload) as [reg' E].
  unfold stacks.MergeWithCategoryDefaults, bindM. by rewrite E.
Qed.

(** ** C2: the cycle detector *)

Section walks.
Variable E : string → string → Prop.

Lemma walk_snoc l a b :
  walk E l → last l = Some a → E a b → walk E (l ++ [b]).
Proof.
  induction 1 as [|x|x y l Hxy Hw IH]; intros Hlast Hab; simplify_eq/=.
  - repeat constructor. done.
  - constructor; [done|]. apply IH; [|done]. done.
Qed.

Lemma walk_snoc_empty b : walk E ([] ++ [b]).
Proof. constructor. Qed.

Lemma walk_tail a l : walk E (a :: l) → walk E l.
Proof. inversion 1; subst; [constructor|done]. Qed.

Lemma walk_drop n l : walk E l → walk E (drop n l).
Proof.
  revert l. induction n as [|n IH]; intros l Hw; [by rewrite drop_0|].
  destruct l as [|a l]; [done|]. simpl. apply IH. by eapply walk_tail.
Qed.

Lemma walk_rtc a l z : walk E (a :: l) → last (a :: l) = Some z → rtc E a z.
Proof.
  revert a. induction l as [|b l IH]; intros a Hw Hlast.
  - simplify_eq/=. done.
  - inversion Hw; subst. eapply rtc_l; [done|]. apply IH; [done|].
    by rewrite last_cons_cons in Hlast.
Qed.

(** A cycle puts its first name on a closed chain of edges. *)
Lemma is_cycle_tc c : is_cycle E c → ∃ n, n ∈ c ∧ tc E n n.
Proof.
  intros [Hw (first & lst & Hhd & Hlast & Hedge)].
  destruct c as [|a l]; [done|]. simplify_eq/=.
  exists first. split; [left|].
  eapply tc_rtc_l; [by eapply walk_rtc|]. by apply tc_once.
Qed.

Lemma tc_first_step a b : tc E a b → ∃ c, E a c ∧ rtc E c b.
Proof.
  inversion 1 as [|? c ? Hac Hcb]; subst.
  - eexists. split; [done|]. done.
  - exists c. split; [done|]. by apply tc_rtc.
Qed.

End walks.

Lemma state_of_set_state n s d m :
  stacks.state_of (stacks.set_state n s d) m
  = if decide (n = m) then s else stacks.state_of d m.
Proof.
  unfold stacks.state_of, stacks.set_state; simpl.
  case_decide; subst; [by rewrite lookup_insert_eq|by rewrite lookup_insert_ne].
Qed.

Lemma state_of_push n d m :
  stacks.state_of (stacks.push n d) m = stacks.state_of d m.
Proof. done. Qed.

Lemma state_of_pop d m : stacks.state_of (stacks.pop d) m = stacks.state_of d m.
Proof. done. Qed.

Lemma pop_push_path n d :
  stacks.path (stacks.pop (stacks.push n d)) = stacks.path d.
Proof.
  simpl. rewrite length_app. simpl.
  replace (length (stacks.path d) + 1 - 1)%nat with (length (stacks.path d)) by lia.
  by rewrite take_app_length.
Qed.

Lemma settled_refl d : settled d d.
Proof. by intros n _. Qed.

Lemma settled_trans d1 d2 d3 : settled d1 d2 → settled d2 d3 → settled d1 d3.
Proof.
  intros H12 H23 n Hn. rewrite H23; [by apply H12|]. by rewrite H12.
Qed.

Lemma last_drop_lookup {A} (l : list A) i x :
  l !! i = Some x → head (drop i l) = Some x ∧ last (drop i l) = last l.
Proof.
  intros Hi. split.
  - by rewrite head_lookup, lookup_drop, Nat.add_0_r.
  - rewrite <- (take_drop i l) at 2.
    destruct (drop i l) as [|y l'] eqn:Ed.
    + apply (f_equal length) in Ed. rewrite length_drop in Ed. simpl in Ed.
      apply lookup_lt_Some in Hi. lia.
    + rewrite last_app. by destruct (last (y :: l')) eqn:El;
        [|rewrite last_None in El].
Qed.

Section detector.
Variable g : gmap string (list string).
Abbreviation E := (edge g).
Abbreviation Inv := (detector_inv g).

Lemma closed_rtc d u v :
  Inv d → stacks.state_of d u = stacks.stateVisited → rtc E u v →
  stacks.state_of d v = stacks.stateVisited.
Proof.
  intros HI Hu Huv. induction Huv as [|x y z Hxy _ IH]; [done|].
  apply IH. by eapply inv_closed.
Qed.

(** The cycle read off the path closes on a back edge. *)
Lemma extractCycle_is_cycle d node dep :
  Inv d → last (stacks.path d) = Some node → E node dep →
  stacks.state_of d dep = stacks.stateVisiting →
  is_cycle E (stacks.extractCycle d dep).
Proof.
  intros HI Hlast Hedge Hst. apply (inv_visiting _ _ HI) in Hst.
  unfold stacks.extractCycle.
  destruct (list_find _ _) as [[i x]|] eqn:Ef.
  - apply list_find_Some in Ef as (Hi & -> & _).
    destruct (last_drop_lookup _ _ _ Hi) as [Hhd Hl].
    split; [apply walk_drop, (inv_walk _ _ HI)|].
    exists dep, node. rewrite Hl. done.
  - apply list_find_None in Ef. rewrite Forall_forall in Ef.
    by destruct (Ef dep Hst).
Qed.

Lemma Inv_enter d node :
  Inv d → stacks.state_of d node = stacks.stateUnvisited →
  (stacks.path d = [] ∨ ∃ p, last (stacks.path d) = Some p ∧ E p node) →
  Inv (stacks.push node (stacks.set_state node stacks.stateVisiting d)).
Proof.
  intros HI Hst Hpath. split.
  - apply (inv_graph _ _ HI).
  - simpl. destruct Hpath as [->|(p & Hlast & Hp)]; [apply walk_snoc_empty|].
    eapply walk_snoc; [apply (inv_walk _ _ HI)|done..].
  - intros n. rewrite state_of_push, state_of_set_state. simpl.
    rewrite elem_of_app, list_elem_of_singleton, <- (inv_visiting _ _ HI).
    case_decide; subst; [tauto|]. split; [tauto|]. intros [?|?]; [done|congruence].
  - intros u v. rewrite !state_of_push, !state_of_set_state.
    case_decide; [done|]. intros Hu Huv.
    pose proof (inv_closed _ _ HI _ _ Hu Huv) as Hv.
    case_decide; [subst; congruence|done].
  - intros u. rewrite state_of_push, state_of_set_state.
    case_decide; [done|]. apply (inv_acyclic _ _ HI).
Qed.

Lemma Inv_leave d0 d node :
  stacks.state_of d0 node = stacks.stateUnvisited →
  Inv d0 →
  Inv d →
  stacks.path d = stacks.path d0 ++ [node] →
  (∀ v, E node v → stacks.state_of d v = stacks.stateVisited) →
  Inv (stacks.pop (stacks.set_state node stacks.stateVisited d)).
Proof.
  intros Hst0 HI0 HI Hpath Hsucc.
  assert (Hnode : stacks.state_of d node = stacks.stateVisiting).
  { apply (inv_visiting _ _ HI). rewrite Hpath. set_solver. }
  assert (Hnotin : ¬ node ∈ stacks.path d0).
  { rewrite <- (inv_visiting _ _ HI0). congruence. }
  assert (Hpop : stacks.path (stacks.pop (stacks.set_state node stacks.stateVisited d))
                 = stacks.path d0).
  { simpl. rewrite Hpath, length_app. simpl.
    replace (length (stacks.path d0) + 1 - 1)%nat
      with (length (stacks.path d0)) by lia.
    by rewrite take_app_length. }
  split.
  - apply (inv_graph _ _ HI).
  - rewrite Hpop. apply (inv_walk _ _ HI0).
  - intros n. rewrite Hpop, state_of_pop, state_of_set_state.
    case_decide; subst; [split; [done|]; intros ?; done|].
    rewrite (inv_visiting _ _ HI), Hpath, elem_of_app, list_elem_of_singleton.
    split; [intros [?|?]; [done|congruence]|tauto].
  - intros u v. rewrite !state_of_pop, !state_of_set_state.
    destruct (decide (node = v)) as [|Hv]; [done|].
    destruct (decide (node = u)) as [<-|Hu']; intros Hu Huv;
      [by apply Hsucc|]. by eapply inv_closed.
  - intros u. rewrite state_of_pop, state_of_set_state.
    case_decide; subst; [|apply (inv_acyclic _ _ HI)].
    intros _ Htc. apply tc_first_step in Htc as (v & Hv & Hback).
    pose proof (closed_rtc _ _ _ HI (Hsucc _ Hv) Hback). congruence.
Qed.

Lemma visit_deps_spec rec node deps d out :
  dfs_correct g rec →
  Inv d → last (stacks.path d) = Some node →
  (∀ dep, dep ∈ deps → E node dep) →
  stacks.visit_deps rec deps d = Some out →
  match out with
  | (Some cycle, _) => is_cycle E cycle
  | (None, d') =>
      Inv d' ∧ stacks.path d' = stacks.path d ∧ settled d d' ∧
      ∀ dep, dep ∈ deps → stacks.state_of d' dep = stacks.stateVisited
  end.
Proof.
  intros Hrec. revert d.
  induction deps as [|dep rest IH]; intros d HI Hlast Hdeps Hrun.
  - simplify_eq/=. split_and!; [done|done|apply settled_refl|]. by intros ? ?%elem_of_nil.
  - assert (Hedge : E node dep) by (apply Hdeps; left).
    assert (Hrest : ∀ x, x ∈ rest → E node x) by (intros; apply Hdeps; by right).
    simpl in Hrun. destruct (stacks.state_of d dep) eqn:Hst.
    + destruct (rec dep d) as [[[cycle|] d1]|] eqn:Hcall; [| |done].
      * simplify_eq. by apply (Hrec dep d _ HI Hst (or_intror (ex_intro _ node (conj Hlast Hedge))) Hcall).
      * pose proof (Hrec dep d _ HI Hst
          (or_intror (ex_intro _ node (conj Hlast Hedge))) Hcall)
          as (HI1 & Hp1 & Hdep1 & Hset1).
        specialize (IH d1 HI1). rewrite Hp1 in IH.
        specialize (IH Hlast Hrest Hrun).
        destruct out as [[cycle|] d']; [done|].
        destruct IH as (HI' & Hp' & Hset' & Hvis).
        split_and!; [done|congruence|by eapply settled_trans|].
        intros x [->|Hx]%elem_of_cons; [|by apply Hvis].
        rewrite Hset'; [done|]. by rewrite Hdep1.
    + simplify_eq. by eapply extractCycle_is_cycle.
    + specialize (IH d HI Hlast Hrest Hrun).
      destruct out as [[cycle|] d']; [done|].
      destruct IH as (HI' & Hp' & Hset' & Hvis).
      split_and!; [done|done|done|].
      intros x [->|Hx]%elem_of_cons; [|by apply Hvis].
      rewrite Hset'; [done|]. by rewrite Hst.
Qed.

Lemma graph_of_edge d node dep :
  Inv d → dep ∈ stacks.graph_of d node → E node dep.
Proof.
  intros HI. unfold stacks.graph_of. rewrite (inv_graph _ _ HI).
  destruct (g !! node) as [deps|] eqn:Eg; simpl; [|by intros ?%elem_of_nil].
  intros Hin. by exists deps.
Qed.

Lemma edge_graph_of d node dep :
  Inv d → E node dep → dep ∈ stacks.graph_of d node.
Proof.
  intros HI (deps & Hg & Hin). unfold stacks.graph_of.
  by rewrite (inv_graph _ _ HI), Hg.
Qed.

(** The search is correct with any amount of fuel it does not exhaust. *)
Lemma dfs_spec fuel : dfs_correct g (stacks.dfs fuel).
Proof.
  induction fuel as [|fuel IH]; intros node d out HI Hst Hpath Hrun; [done|].
  simpl in Hrun.
  set (d1 := stacks.push node (stacks.set_state node stacks.stateVisiting d)) in *.
  assert (HI1 : Inv d1) by by apply Inv_enter.
  assert (Hlast1 : last (stacks.path d1) = Some node) by apply last_snoc.
  destruct (stacks.visit_deps _ _ d1) as [out1|] eqn:Hloop; [|done].
  pose proof (visit_deps_spec _ node _ _ _ IH HI1 Hlast1
                (λ dep, graph_of_edge d1 node dep HI1) Hloop) as Hpost.
  destruct out1 as [[cycle|] d2]; simplify_eq; [done|].
  destruct Hpost as (HI2 & Hp2 & Hset2 & Hvis).
  assert (Hsucc : ∀ v, E node v → stacks.state_of d2 v = stacks.stateVisited).
  { intros v Hv. apply Hvis. by apply edge_graph_of. }
  split_and!.
  - by apply (Inv_leave d).
  - simpl. rewrite Hp2. apply (pop_push_path node (stacks.set_state node stacks.stateVisiting d)).
  - rewrite state_of_pop, state_of_set_state. by rewrite decide_True.
  - intros n Hn. assert (node ≠ n) by congruence.
    rewrite state_of_pop, state_of_set_state, decide_False by done.
    rewrite Hset2; unfold d1; rewrite state_of_push, state_of_set_state,
      decide_False by done; done.
Qed.

End detector.

(** *** The search terminates *)

Lemma elem_of_unvisited d n :
  n ∈ unvisited d ↔
  stacks.state_of d n = stacks.stateUnvisited ∧ n ∈ stacks.universe (stacks.graph d).
Proof. unfold unvisited. by rewrite elem_of_filter. Qed.

Lemma graph_of_universe d node dep :
  dep ∈ stacks.graph_of d node → dep ∈ stacks.universe (stacks.graph d).
Proof.
  unfold stacks.graph_of, stacks.universe.
  destruct (stacks.graph d !! node) as [deps|] eqn:Eg; simpl;
    [|by intros ?%elem_of_nil].
  intros Hin. apply elem_of_union_r, elem_of_list_to_set.
  apply list_elem_of_In, in_concat. exists deps. split; [|by apply list_elem_of_In].
  apply list_elem_of_In, list_elem_of_fmap. exists (node, deps).
  split; [done|]. by apply elem_of_map_to_list.
Qed.

Lemma unvisited_set_state n s d :
  s ≠ stacks.stateUnvisited →
  unvisited (stacks.set_state n s d) = unvisited d ∖ {[n]}.
Proof.
  intros Hs. apply set_eq. intros x.
  rewrite elem_of_difference, !elem_of_unvisited, state_of_set_state,
    elem_of_singleton. simpl.
  case_decide; subst.
  - split; [by intros [? _]|by intros [_ ?]].
  - split; [intros [? ?]; split_and!; [done|done|congruence]|tauto].
Qed.

Lemma unvisited_push n d : unvisited (stacks.push n d) = unvisited d.
Proof. done. Qed.

Lemma unvisited_pop d : unvisited (stacks.pop d) = unvisited d.
Proof. done. Qed.

Lemma visit_deps_total rec bound deps d :
  dfs_returns rec bound →
  (∀ dep, dep ∈ deps → dep ∈ stacks.universe (stacks.graph d)) →
  (size (unvisited d) ≤ bound)%nat →
  ∃ out, stacks.visit_deps rec deps d = Some out ∧
         stacks.graph out.2 = stacks.graph d ∧
         unvisited out.2 ⊆ unvisited d.
Proof.
  intros Hrec. revert d.
  induction deps as [|dep rest IH]; intros d Hdeps Hsize; simpl.
  - eexists. split_and!; done.
  - destruct (stacks.state_of d dep) eqn:Hst.
    + destruct (Hrec dep d) as ([r d1] & -> & Hg1 & Hsub1); [|done|].
      { apply elem_of_unvisited. split; [done|]. apply Hdeps. left. }
      simpl in *. destruct r as [cycle|].
      * eexists. split_and!; [done|done|]. set_solver.
      * destruct (IH d1) as (out & -> & Hg & Hsub).
        { intros x Hx. rewrite Hg1. apply Hdeps. by right. }
        { etrans; [|exact Hsize]. apply subseteq_size. set_solver. }
        eexists. split_and!; [done|congruence|set_solver].
    + eexists. split_and!; done.
    + apply IH; [|done]. intros x Hx. apply Hdeps. by right.
Qed.

Lemma dfs_total fuel : dfs_returns (stacks.dfs fuel) fuel.
Proof.
  induction fuel as [|fuel IH]; intros node d Hnode Hsize.
  - assert (Hz : size (unvisited d) = 0%nat) by lia.
    apply size_empty_inv in Hz. set_solver.
  - pose proof Hnode as [Hst Hu]%elem_of_unvisited. simpl.
    set (d1 := stacks.push node (stacks.set_state node stacks.stateVisiting d)).
    assert (Hun1 : unvisited d1 = unvisited d ∖ {[node]}).
    { unfold d1. by rewrite unvisited_push, unvisited_set_state. }
    assert (Hsize1 : (size (unvisited d1) ≤ fuel)%nat).
    { rewrite Hun1, size_difference by set_solver. rewrite size_singleton.
      assert (size (unvisited d) ≠ 0%nat); [|lia].
      intros Hz. apply size_empty_inv in Hz. set_solver. }
    destruct (visit_deps_total _ _ (stacks.graph_of d1 node) d1 IH)
      as ([r d2] & -> & Hg2 & Hsub2); [|done|].
    { intros dep. apply graph_of_universe. }
    simpl in *. destruct r as [cycle|]; eexists; (split; [done|]); simpl.
    + split; [done|]. by rewrite <- Hun1.
    + split; [done|].
      rewrite unvisited_pop, unvisited_set_state by done. set_solver.
Qed.

Lemma detect_from_total fuel nodes cycles d :
  (∀ n, n ∈ nodes → n ∈ stacks.universe (stacks.graph d)) →
  (size (unvisited d) ≤ fuel)%nat →
  is_Some (stacks.detect_from fuel nodes cycles d).
Proof.
  revert cycles d. induction nodes as [|node rest IH]; intros cycles d Hn Hsize.
  - by eexists.
  - assert (Hrest : ∀ n, n ∈ rest → n ∈ stacks.universe (stacks.graph d))
      by (intros; apply Hn; by right).
    simpl. destruct (stacks.state_of d node) eqn:Hst; try by apply IH.
    destruct (dfs_total fuel node d) as ([r d1] & -> & Hg1 & Hsub1); [|done|].
    { apply elem_of_unvisited. split; [done|]. apply Hn. left. }
    simpl in *.
    assert ((size (unvisited d1) ≤ fuel)%nat).
    { etrans; [|exact Hsize]. apply subseteq_size. set_solver. }
    destruct r; apply IH; (try done); by rewrite Hg1.
Qed.

(** The cycle search always returns. *)
Lemma DetectCycles_total O d : is_Some (stacks.DetectCycles O d).
Proof.
  unfold stacks.DetectCycles.
  destruct (detect_from_total (stacks.dfs_fuel d) (range O (stacks.graph d)).*1 [] d)
    as [res Hres].
  - intros n Hn%range_keys. unfold stacks.universe.
    apply elem_of_union_l, elem_of_dom. done.
  - unfold stacks.dfs_fuel. etrans; [|apply Nat.le_succ_diag_r].
    apply subseteq_size. intros x Hx%elem_of_unvisited. tauto.
  - rewrite Hres. by eexists.
Qed.

Lemma detect_from_prefix fuel nodes cycles d cs d' :
  stacks.detect_from fuel nodes cycles d = Some (cs, d') →
  ∃ more, cs = cycles ++ more.
Proof.
  revert cycles d. induction nodes as [|node rest IH]; intros cycles d Hrun.
  - simplify_eq/=. exists []. by rewrite app_nil_r.
  - simpl in Hrun. destruct (stacks.state_of d node); try by eapply IH.
    destruct (stacks.dfs fuel node d) as [[[cycle|] d1]|]; [| |done].
    + apply IH in Hrun as [more ->]. exists (cycle :: more).
      by rewrite <- app_assoc.
    + by eapply IH.
Qed.

Section detect.
Variable g : gmap string (list string).
Abbreviation E := (edge g).
Abbreviation Inv := (detector_inv g).

(** Started with an empty path, the loop over the roots either finishes
    every root without a cycle, or its first report is a cycle of the
    graph. *)
Lemma detect_from_spec fuel nodes d cs d' :
  Inv d → stacks.path d = [] →
  stacks.detect_from fuel nodes [] d = Some (cs, d') →
  (cs = [] ∧ Inv d' ∧ settled d d' ∧
   ∀ n, n ∈ nodes → stacks.state_of d' n = stacks.stateVisited)
  ∨ (∃ cycle more, cs = cycle :: more ∧ is_cycle E cycle).
Proof.
  revert d. induction nodes as [|node rest IH]; intros d HI Hpath Hrun.
  - simplify_eq/=. left. split_and!; [done|done|apply settled_refl|].
    by intros ? ?%elem_of_nil.
  - simpl in Hrun.
    assert (Hskip : stacks.state_of d node ≠ stacks.stateUnvisited →
                    stacks.state_of d node = stacks.stateVisited).
    { intros Hne. destruct (stacks.state_of d node) eqn:Hst; [done| |done].
      apply (inv_visiting _ _ HI) in Hst. rewrite Hpath in Hst.
      by apply elem_of_nil in Hst. }
    destruct (stacks.state_of d node) eqn:Hst.
    + destruct (stacks.dfs fuel node d) as [[[cycle|] d1]|] eqn:Hcall; [| |done].
      * right. pose proof (dfs_spec g fuel node d _ HI Hst (or_introl Hpath) Hcall)
          as Hcyc.
        apply detect_from_prefix in Hrun as [more ->]. by exists cycle, more.
      * pose proof (dfs_spec g fuel node d _ HI Hst (or_introl Hpath) Hcall)
          as (HI1 & Hp1 & Hnode1 & Hset1).
        destruct (IH d1 HI1) as [(-> & HI' & Hset' & Hvis)|?]; [congruence|done| |by right].
        left. split_and!; [done|done|by eapply settled_trans|].
        intros n [->|Hn]%elem_of_cons; [|by apply Hvis].
        rewrite Hset'; [done|]. by rewrite Hnode1.
    + by specialize (Hskip ltac:(done)).
    + destruct (IH d HI Hpath Hrun) as [(-> & HI' & Hset' & Hvis)|?]; [|by right].
      left. split_and!; [done|done|done|].
      intros n [->|Hn]%elem_of_cons; [|by apply Hvis].
      rewrite Hset'; [done|]. by rewrite Hst.
Qed.

(** A graph all of whose keys are finished has no cycle. *)
Lemma finished_acyclic d :
  Inv d →
  (∀ n, is_Some (g !! n) → stacks.state_of d n = stacks.stateVisited) →
  ¬ has_cycle E.
Proof.
  intros HI Hall [c Hc]. apply is_cycle_tc in Hc as (n & _ & Htc).
  apply (inv_acyclic _ _ HI n); [|done].
  apply tc_first_step in Htc as (v & (deps & Hg & _) & _).
  apply Hall. by eexists.
Qed.

(** On a detector that has entered nothing yet, [DetectCycles] reports
    no cycle exactly when the graph has none, and what it reports first
    is a cycle of the graph. *)
Lemma DetectCycles_spec O d :
  stacks.graph d = g → stacks.path d = [] →
  (∀ n, stacks.state_of d n = stacks.stateUnvisited) →
  (stacks.DetectCycles O d = Some [] ∧ ¬ has_cycle E)
  ∨ (∃ cycle more, stacks.DetectCycles O d = Some (cycle :: more) ∧
                   is_cycle E cycle).
Proof.
  intros Hg Hpath Hnew.
  assert (HI : Inv d).
  { split; [done|rewrite Hpath; constructor| | |].
    - intros n. rewrite Hnew, Hpath. split; [done|by intros ?%elem_of_nil].
    - intros u v. by rewrite Hnew.
    - intros u. by rewrite Hnew. }
  destruct (DetectCycles_total O d) as [cs Hcs]. rewrite Hcs.
  unfold stacks.DetectCycles in Hcs.
  destruct (stacks.detect_from _ _ _ _) as [[cs' d']|] eqn:Hrun; [|done].
  simpl in Hcs. injection Hcs as <-.
  destruct (detect_from_spec _ _ _ _ _ HI Hpath Hrun)
    as [(-> & HI' & _ & Hvis)|(cycle & more & -> & Hcyc)].
  - left. split; [done|]. apply (finished_acyclic d' HI').
    intros n Hn. apply Hvis, range_keys. by rewrite Hg.
  - right. by exists cycle, more.
Qed.

End detect.

(** *** Building the graph and checking presence *)

Lemma is_enabled_spec names dep :
  stacks.is_enabled (stacks.EnabledStacksMap names) dep = true ↔ dep ∈ names.
Proof.
  unfold stacks.is_enabled, stacks.EnabledStacksMap.
  assert (Hgen : ∀ (m : gmap string bool),
    default false (foldl (λ m s, <[s:=true]> m) m names !! dep) = true
    ↔ dep ∈ names ∨ default false (m !! dep) = true).
  { induction names as [|n names IH]; intros m; simpl.
    - split; [by right|]. by intros [?%elem_of_nil|?].
    - rewrite IH, elem_of_cons. destruct (decide (n = dep)) as [->|Hne].
      + rewrite lookup_insert_eq. simpl. tauto.
      + rewrite lookup_insert_ne by done.
        split; [intros [?|?]; auto|intros [[?|?]|?]; auto; congruence]. }
  rewrite Hgen, lookup_empty. simpl. split; [by intros [?|?]|by left].
Qed.

Lemma check_requires_Ok enabled name requires :
  (∀ dep, dep ∈ requires → stacks.is_enabled enabled dep = true) →
  stacks.check_requires enabled name requires = Ok ().
Proof.
  induction requires as [|dep rest IH]; intros H; simpl; [done|].
  rewrite H by left. apply IH. intros; apply H. by right.
Qed.

Lemma check_requires_Err enabled name requires e :
  stacks.check_requires enabled name requires = Err e →
  ∃ dep, dep ∈ requires ∧ stacks.is_enabled enabled dep = false ∧
         e = ErrNotEnabled name dep.
Proof.
  induction requires as [|dep rest IH]; simpl; [done|].
  destruct (stacks.is_enabled enabled dep) eqn:He.
  - intros (x & ? & ?)%IH. exists x. split; [by right|done].
  - intros [= <-]. exists dep. split; [left|done].
Qed.

Section validate.
Variable O : MapOrder.
Variable disk : stacks.Disk.

Abbreviation present := (present O disk).

Lemma presence_loop all names reg :
  present all names →
  ∃ reg',
    forM (λ name, do stack <- stacks.LoadStack O disk name;
                  liftM (stacks.check_requires (stacks.EnabledStacksMap all)
                           name (stacks.Requires stack)))
         names reg = (Ok (), reg').
Proof.
  revert reg. induction names as [|name rest IH]; intros reg Hp; simpl.
  - by eexists.
  - destruct (Hp name) as (stack & Hload & Hdeps); [left|].
    unfold bindM at 1. unfold bindM at 1.
    rewrite (LoadStack_Ok _ _ _ _ _ Hload). unfold liftM.
    rewrite check_requires_Ok.
    + apply IH. intros n Hn. apply Hp. by right.
    + intros dep Hdep. apply is_enabled_spec. by apply Hdeps.
Qed.

Lemma build_detector_spec names d reg :
  (∀ name, name ∈ names → ∃ stack, load O disk name = Ok stack) →
  ∃ d' reg',
    stacks.build_detector O disk names d reg = (Ok d', reg') ∧
    stacks.path d' = stacks.path d ∧
    (∀ n, n ∈ names →
       stacks.state_of d' n = stacks.stateUnvisited ∧
       ∃ stack, load O disk n = Ok stack ∧
                stacks.graph d' !! n = Some (stacks.Requires stack)) ∧
    (∀ n, ¬ n ∈ names →
       stacks.state_of d' n = stacks.state_of d n ∧
       stacks.graph d' !! n = stacks.graph d !! n).
Proof.
  revert d reg. induction names as [|name rest IH]; intros d reg Hload; simpl.
  - eexists _, _. split_and!; [done|done| |done]. by intros ? ?%elem_of_nil.
  - destruct (Hload name) as (stack & Hs); [left|].
    unfold bindM. rewrite (LoadStack_Ok _ _ _ _ _ Hs).
    match goal with |- context [stacks.build_detector _ _ _ ?d1 ?r1] =>
      destruct (IH d1 r1) as (d' & reg' & -> & Hp & Hin & Hout) end.
    { intros n Hn. apply Hload. by right. }
    eexists _, _. split_and!; [done|done| |].
    + intros n Hn. destruct (decide (n ∈ rest)) as [Hr|Hr]; [by apply Hin|].
      apply elem_of_cons in Hn as [->|?]; [|done].
      destruct (Hout name Hr) as [Hst Hg]. split.
      * rewrite Hst. unfold stacks.state_of. simpl. by rewrite lookup_insert_eq.
      * exists stack. split; [done|]. rewrite Hg. simpl. by rewrite lookup_insert_eq.
    + intros n Hn. rewrite not_elem_of_cons in Hn. destruct Hn as [Hne Hr].
      destruct (Hout n Hr) as [Hst Hg]. split.
      * rewrite Hst. unfold stacks.state_of. simpl. by rewrite lookup_insert_ne.
      * rewrite Hg. simpl. by rewrite lookup_insert_ne.
Qed.

Lemma NewCycleDetector_spec names reg :
  (∀ name, name ∈ names → ∃ stack, load O disk name = Ok stack) →
  ∃ d reg',
    stacks.NewCycleDetector O disk names reg = (Ok d, reg') ∧
    stacks.path d = [] ∧
    (∀ n, stacks.state_of d n = stacks.stateUnvisited) ∧
    (∀ a b, edge (stacks.graph d) a b ↔ requires_edge O disk names a b).
Proof.
  intros Hload. unfold stacks.NewCycleDetector.
  destruct (build_detector_spec names {| stacks.graph := ∅; stacks.state := ∅;
                                         stacks.path := [] |} reg Hload)
    as (d & reg' & -> & Hp & Hin & Hout).
  exists d, reg'. split_and!; [done|done| |].
  - intros n. destruct (decide (n ∈ names)) as [Hn|Hn]; [by apply Hin|].
    by destruct (Hout n Hn) as [-> _].
  - intros a b. unfold edge, requires_edge. split.
    + intros (deps & Hg & Hb).
      destruct (decide (a ∈ names)) as [Ha|Ha].
      * destruct (Hin a Ha) as [_ (stack & Hs & Hg')].
        split; [done|]. exists stack. split; [done|]. congruence.
      * destruct (Hout a Ha) as [_ Hg']. rewrite Hg' in Hg. done.
    + intros (Ha & stack & Hs & Hb).
      destruct (Hin a Ha) as [_ (stack' & Hs' & Hg')].
      exists (stacks.Requires stack'). split; [done|]. congruence.
Qed.

Lemma ValidateDependencies_spec names reg :
  present names names →
  ∃ reg',
    (stacks.ValidateDependencies O disk names reg = Some (Ok (), reg') ∧
     ¬ has_cycle (requires_edge O disk names))
    ∨ (∃ cycle,
         stacks.ValidateDependencies O disk names reg
         = Some (Err (ErrReport (errors.DependencyCycle cycle)), reg') ∧
         is_cycle (requires_edge O disk names) cycle).
Proof.
  intros Hp. unfold stacks.ValidateDependencies.
  destruct (presence_loop names names reg Hp) as [reg1 ->].
  destruct (NewCycleDetector_spec names reg1) as (d & reg2 & -> & Hpath & Hnew & Hedge).
  { intros n Hn. destruct (Hp n Hn) as (s & ? & _). eauto. }
  exists reg2.
  assert (Hcyc : ∀ c, is_cycle (edge (stacks.graph d)) c
                      ↔ is_cycle (requires_edge O disk names) c).
  { intros c. unfold is_cycle.
    assert (Hw : ∀ l, walk (edge (stacks.graph d)) l
                      ↔ walk (requires_edge O disk names) l).
    { intros l. split; induction 1; constructor; try done; by apply Hedge. }
    rewrite Hw. split; intros [? (f & l & ? & ? & ?)]; (split; [done|]);
      exists f, l; split_and!; try done; by apply Hedge. }
  destruct (DetectCycles_spec (stacks.graph d) O d eq_refl Hpath Hnew)
    as [[-> Hno]|(cycle & more & -> & Hc)].
  - left. split; [done|]. intros [c Hc]. apply Hno. exists c. by apply Hcyc.
  - right. exists cycle. split; [done|]. by apply Hcyc.
Qed.

End validate.

Lemma presentb_present O disk all names :
  presentb O disk all names = true → present O disk all names.
Proof.
  unfold presentb, present. rewrite forallb_forall.
  intros H name Hn%list_elem_of_In. specialize (H name Hn).
  destruct (load O disk name) as [stack|]; [|done].
  exists stack. split; [done|]. rewrite forallb_forall in H.
  intros dep Hdep%list_elem_of_In. specialize (H dep Hdep).
  by apply bool_decide_eq_true in H.
Qed.

(** The cycle read off the path is the part of the path from the first
    occurrence of the back-edge target to the end. *)
Lemma extractCycle_suffix d backNode :
  backNode ∈ stacks.path d →
  ∃ before,
    stacks.path d = before ++ stacks.extractCycle d backNode ∧
    ¬ backNode ∈ before ∧
    head (stacks.extractCycle d backNode) = Some backNode.
Proof.
  intros Hin. unfold stacks.extractCycle.
  destruct (list_find _ _) as [[i x]|] eqn:Ef.
  - apply list_find_Some in Ef as (Hi & -> & Hfirst).
    exists (take i (stacks.path d)). split_and!.
    + by rewrite take_drop.
    + intros (j & Hj)%list_elem_of_lookup.
      apply lookup_take_Some in Hj as [Hj Hlt]. by apply (Hfirst j backNode).
    + by apply last_drop_lookup.
  - apply list_find_None in Ef. rewrite Forall_forall in Ef.
    by destruct (Ef backNode Hin).
Qed.

(** The search never runs out of fuel. *)
Lemma ValidateDependencies_returns O disk names reg :
  is_Some (stacks.ValidateDependencies O disk names reg).
Proof.
  unfold stacks.ValidateDependencies.
  destruct (forM _ _ _) as [[[]|e] reg1]; [|by eexists].
  destruct (stacks.NewCycleDetector _ _ _ _) as [[d|e] reg2]; [|by eexists].
  destruct (DetectCycles_total O d) as [cs ->]. destruct cs; by eexists.
Qed.

(** C2. When every enabled stack loads (so none requires itself) and
    requires only enabled stacks, dependency validation returns: it
    succeeds if the graph of the requires edges among the enabled stacks has
    no directed cycle, and if the graph has one it fails with the
    dependency-cycle error for a list of stacks that is a directed cycle of
    that graph. *)
Theorem ValidateDependencies_dag_or_cycle O disk names reg :
  present O disk names names →
  (¬ has_cycle (requires_edge O disk names) →
   ∃ reg', stacks.ValidateDependencies O disk names reg = Some (Ok (), reg'))
  ∧ (has_cycle (requires_edge O disk names) →
     ∃ cycle reg',
       stacks.ValidateDependencies O disk names reg
       = Some (Err (ErrReport (errors.DependencyCycle cycle)), reg') ∧
       is_cycle (requires_edge O disk names) cycle).
Proof.
  intros Hp.
  destruct (ValidateDependencies_spec O disk names reg Hp)
    as [reg' [[Hok Hno]|(cycle & Herr & Hc)]].
  - split; [by eauto|]. intros Hcyc. by destruct Hno.
  - split; [|by eauto]. intros Hno. destruct Hno. by exists cycle.
Qed.

Lemma ValidateDependencies_dag_or_cycle_witness :
  present stored_order samples.disk_cycle ["a"; "b"] ["a"; "b"] ∧
  has_cycle (requires_edge stored_order samples.disk_cycle ["a"; "b"]) ∧
  ∃ cycle reg',
    stacks.ValidateDependencies stored_order samples.disk_cycle ["a"; "b"] ∅
    = Some (Err (ErrReport (errors.DependencyCycle cycle)), reg') ∧
    is_cycle (requires_edge stored_order samples.disk_cycle ["a"; "b"]) cycle.
Proof.
  assert (Hp : present stored_order samples.disk_cycle ["a"; "b"] ["a"; "b"])
    by (apply presentb_present; vm_compute; reflexivity).
  assert (Hab : requires_edge stored_order samples.disk_cycle ["a"; "b"] "a" "b").
  { split; [by left|]. eexists. split; [vm_compute; reflexivity|]. by left. }
  assert (Hba : requires_edge stored_order samples.disk_cycle ["a"; "b"] "b" "a").
  { split; [by right; left|]. eexists. split; [vm_compute; reflexivity|]. by left. }
  assert (Hc : has_cycle (requires_edge stored_order samples.disk_cycle ["a"; "b"])).
  { exists ["a"; "b"]. split; [|by exists "a", "b"].
    apply walk_cons; [exact Hab|apply walk_one]. }
  split; [exact Hp|]. split; [exact Hc|].
  exact (proj2 (ValidateDependencies_dag_or_cycle stored_order samples.disk_cycle
                  ["a"; "b"] ∅ Hp) Hc).
Defined.

(** ** C4: the category hierarchy *)

Section hierarchy.
Variable O : MapOrder.
Variable disk : stacks.Disk.

Lemma LoadStack_run name reg :
  ∃ reg', stacks.LoadStack O disk name reg = (load O disk name, reg') ∧
          same_categories reg reg' ∧
          ∀ stack, load O disk name = Ok stack →
                   reg' !! stacks.Category stack
                   = Some (category_of reg (stacks.Category stack)).
Proof.
  pose proof (LoadStack_result O disk name reg) as Hres.
  pose proof (same_categories_LoadStack O disk name reg) as Hsame.
  destruct (stacks.LoadStack O disk name reg) as [r reg'] eqn:Hrun.
  simpl in *. subst r. exists reg'. split_and!; [done|done|].
  intros stack Hs. rewrite (LoadStack_Ok _ _ _ reg _ Hs) in Hrun.
  injection Hrun as _ <-. apply RegisterCategory_lookup_same.
Qed.

(** The loop over the requires of one stack. *)
Lemma check_category_deps_spec reg a ca requires reg1 :
  same_categories reg reg1 →
  match stacks.check_category_deps O disk a ca requires reg1 with
  | (Ok _, reg2) =>
      same_categories reg reg2 ∧
      ∀ b sb, b ∈ requires → load O disk b = Ok sb →
              order_of reg (stacks.Category sb) ≤ categories.Order ca
  | (Err e, _) =>
      ∃ b sb, b ∈ requires ∧ load O disk b = Ok sb ∧
              categories.Order ca < order_of reg (stacks.Category sb) ∧
              e = stacks.invalid_category_dependency a ca
                    b (category_of reg (stacks.Category sb))
  end.
Proof.
  revert reg1. induction requires as [|b rest IH]; intros reg1 Hsame; simpl.
  - split; [done|]. by intros ? ? ?%elem_of_nil.
  - destruct (LoadStack_run b reg1) as (reg2 & -> & Hsame2 & Hcat).
    assert (Hsame' : same_categories reg reg2) by by eapply same_categories_trans.
    assert (Hnext :
      (∀ sb, load O disk b = Ok sb →
             order_of reg (stacks.Category sb) ≤ categories.Order ca) →
      match stacks.check_category_deps O disk a ca rest reg2 with
      | (Ok _, reg3) =>
          same_categories reg reg3 ∧
          ∀ b' sb, b' ∈ b :: rest → load O disk b' = Ok sb →
                   order_of reg (stacks.Category sb) ≤ categories.Order ca
      | (Err e, _) =>
          ∃ b' sb, b' ∈ b :: rest ∧ load O disk b' = Ok sb ∧
                   categories.Order ca < order_of reg (stacks.Category sb) ∧
                   e = stacks.invalid_category_dependency a ca
                         b' (category_of reg (stacks.Category sb))
      end).
    { intros Hb. specialize (IH reg2 Hsame').
      destruct (stacks.check_category_deps O disk a ca rest reg2) as [[[]|e] reg3].
      - destruct IH as [Hs3 Hrest]. split; [done|].
        intros b' sb [->|Hin]%elem_of_cons; [apply Hb|by apply Hrest].
      - destruct IH as (b' & sb & Hin & ?). exists b', sb. split; [by right|done]. }
    destruct (load O disk b) as [sb|e] eqn:Hload.
    + unfold categories.Get. rewrite (Hcat sb eq_refl).
      assert (Heq : category_of reg1 (stacks.Category sb)
                    = category_of reg (stacks.Category sb)) by apply Hsame.
      rewrite Heq. case_decide as Hgt.
      * exists b, sb. split_and!; [by left|done| |done]. unfold order_of. lia.
      * apply Hnext. intros sb' [= <-]. unfold order_of. lia.
    + apply Hnext. by intros sb' [=].
Qed.

Lemma ValidateCategoryDependencies_cons a rest reg1 :
  stacks.ValidateCategoryDependencies O disk (a :: rest) reg1
  = match stacks.LoadStack O disk a reg1 with
    | (Ok stack, reg2) =>
        match categories.Get (stacks.Category stack) reg2 with
        | Ok cat =>
            match stacks.check_category_deps O disk a cat
                    (stacks.Requires stack) reg2 with
            | (Ok _, reg3) => stacks.ValidateCategoryDependencies O disk rest reg3
            | (Err e, reg3) => (Err e, reg3)
            end
        | Err e => (Err e, reg2)
        end
    | (Err e, reg2) => (Err e, reg2)
    end.
Proof.
  unfold stacks.ValidateCategoryDependencies. simpl. unfold bindM.
  destruct (stacks.LoadStack O disk a reg1) as [[stack|e] reg2]; [|done].
  by destruct (categories.Get (stacks.Category stack) reg2).
Qed.

Lemma Get_registered name reg cat :
  reg !! name = Some cat → categories.Get name reg = Ok cat.
Proof. intros H. unfold categories.Get. by rewrite H. Qed.

(** The loop over the stacks. *)
Lemma ValidateCategoryDependencies_spec reg names reg1 :
  (∀ name, name ∈ names → ∃ stack, load O disk name = Ok stack) →
  same_categories reg reg1 →
  match stacks.ValidateCategoryDependencies O disk names reg1 with
  | (Ok _, _) => hierarchy_respected O disk reg names
  | (Err e, _) => hierarchy_violation O disk reg names e
  end.
Proof.
  revert reg1. induction names as [|a rest IH]; intros reg1 Hload Hsame.
  - by intros ? ? ? ? ?%elem_of_nil.
  - destruct (Hload a) as (sa & Hsa); [left|].
    rewrite ValidateCategoryDependencies_cons.
    destruct (LoadStack_run a reg1) as (reg2 & -> & Hsame2 & Hcat).
    rewrite Hsa. rewrite (Get_registered _ _ _ (Hcat sa Hsa)).
    assert (Heq : category_of reg1 (stacks.Category sa)
                  = category_of reg (stacks.Category sa)) by apply Hsame.
    rewrite Heq.
    assert (Hsame' : same_categories reg reg2) by by eapply same_categories_trans.
    pose proof (check_category_deps_spec reg a
                  (category_of reg (stacks.Category sa))
                  (stacks.Requires sa) reg2 Hsame') as Hdeps.
    destruct (stacks.check_category_deps _ _ _ _ _ _) as [[[]|e] reg3].
    + destruct Hdeps as [Hsame3 Hdeps].
      assert (Hload' : ∀ n, n ∈ rest → ∃ stack, load O disk n = Ok stack)
        by (intros n Hn; apply Hload; by right).
      specialize (IH reg3 Hload' Hsame3).
      destruct (stacks.ValidateCategoryDependencies O disk rest reg3) as [[[]|e] reg4].
      * intros a' sa' b sb [->|Hin]%elem_of_cons Ha Hb Hlb.
        -- assert (sa' = sa) by congruence. subst. by apply (Hdeps b sb).
        -- by eapply IH.
      * destruct IH as (a' & sa' & b & sb & Hin & ?).
        exists a', sa', b, sb. split; [by right|done].
    + destruct Hdeps as (b & sb & Hin & Hlb & Hlt & ->).
      exists a, sa, b, sb. split_and!; [by left|done..].
Qed.

End hierarchy.

(** C4. For enabled stacks whose manifests load (which registers their
    categories), the category validation succeeds if and only if every
    requires edge of an enabled stack whose target loads has
    order(category(source)) >= order(category(target)); an edge whose target
    does not load is passed over. When the validation fails, the error
    names the two stacks of a violating edge, the display names and the
    orders of their two categories, and its text ends in three ways to
    resolve it. *)
Theorem ValidateCategoryDependencies_iff O disk names reg :
  (∀ name, name ∈ names → ∃ stack, load O disk name = Ok stack) →
  ((∃ reg', stacks.ValidateCategoryDependencies O disk names reg = (Ok (), reg'))
   ↔ hierarchy_respected O disk reg names)
  ∧ (∀ e reg',
       stacks.ValidateCategoryDependencies O disk names reg = (Err e, reg') →
       hierarchy_violation O disk reg names e)
  ∧ (∀ stackName stackCat depName depCat,
       stacks.invalid_category_dependency stackName stackCat depName depCat
       = ErrInvalidCategoryDependency
           stackName (categories.DisplayName stackCat) (categories.Order stackCat)
           depName (categories.DisplayName depCat) (categories.Order depCat)
           (categories.Name stackCat) (categories.Name depCat)
       ∧ length (stacks.category_resolutions stackName depName
                   (categories.Name stackCat) (categories.Name depCat)) = 3%nat).
Proof.
  intros Hload.
  pose proof (ValidateCategoryDependencies_spec O disk reg names reg Hload
                (same_categories_refl reg)) as Hspec.
  destruct (stacks.ValidateCategoryDependencies O disk names reg)
    as [[[]|e] reg1].
  - split_and!; [|done|done]. split; [done|]. by eexists.
  - split_and!; [|by intros ? ? [= <- <-]|done].
    split; [by intros [? [=]]|]. intros Hok.
    destruct Hspec as (a & sa & b & sb & Ha & Hsa & Hb & Hsb & Hlt & _).
    specialize (Hok a sa b sb Ha Hsa Hb Hsb). lia.
Qed.

Lemma present_loads O disk all names :
  present O disk all names →
  ∀ name, name ∈ names → ∃ stack, load O disk name = Ok stack.
Proof. intros Hp name Hn. destruct (Hp name Hn) as (s & ? & _). eauto. Qed.

Lemma ValidateCategoryDependencies_iff_witness :
  (∀ name, name ∈ ["proxy"; "jelly"] →
           ∃ stack, load stored_order samples.disk_tiers name = Ok stack) ∧
  ((∃ reg', stacks.ValidateCategoryDependencies stored_order samples.disk_tiers
              ["proxy"; "jelly"] ∅ = (Ok (), reg'))
   ↔ hierarchy_respected stored_order samples.disk_tiers ∅ ["proxy"; "jelly"])
  ∧ (∀ e reg',
       stacks.ValidateCategoryDependencies stored_order samples.disk_tiers
         ["proxy"; "jelly"] ∅ = (Err e, reg') →
       hierarchy_violation stored_order samples.disk_tiers ∅ ["proxy"; "jelly"] e)
  ∧ (∀ stackName stackCat depName depCat,
       stacks.invalid_category_dependency stackName stackCat depName depCat
       = ErrInvalidCategoryDependency
           stackName (categories.DisplayName stackCat) (categories.Order stackCat)
           depName (categories.DisplayName depCat) (categories.Order depCat)
           (categories.Name stackCat) (categories.Name depCat)
       ∧ length (stacks.category_resolutions stackName depName
                   (categories.Name stackCat) (categories.Name depCat)) = 3%nat).
Proof.
  assert (H : ∀ name, name ∈ ["proxy"; "jelly"] →
                ∃ stack, load stored_order samples.disk_tiers name = Ok stack).
  { apply (present_loads _ _ ["proxy"; "jelly"]), presentb_present.
    vm_compute; reflexivity. }
  split; [exact H|].
  exact (ValidateCategoryDependencies_iff stored_order samples.disk_tiers
           ["proxy"; "jelly"] ∅ H).
Defined.

(** Scenario S4 on the code. *)
Example hierarchy_scenario_S4 :
  (stacks.ValidateCategoryDependencies stored_order samples.disk_tiers
     ["proxy"; "jelly"] ∅).1
  = Err (ErrInvalidCategoryDependency "proxy" "Infrastructure" 2
           "jelly" "Media" 5 "infrastructure" "media").
Proof. vm_compute. reflexivity. Qed.

(** The target of an edge is loaded from disk, enabled or not. *)
Example hierarchy_target_not_enabled :
  (stacks.ValidateCategoryDependencies stored_order samples.disk_tiers
     ["proxy"] ∅).1
  = Err (ErrInvalidCategoryDependency "proxy" "Infrastructure" 2
           "jelly" "Media" 5 "infrastructure" "media").
Proof. vm_compute. reflexivity. Qed.

(** A stack set that keeps to the hierarchy. *)
Example hierarchy_accepts :
  (stacks.ValidateCategoryDependencies stored_order samples.disk_chain
     ["web"; "db"] ∅).1 = Ok ().
Proof. vm_compute. reflexivity. Qed.

(** When every requires edge stays among the enabled stacks, the edges
    the validation looks at are the edges of the enabled graph. *)
Lemma hierarchy_respected_enabled_edges O disk reg names :
  present O disk names names →
  hierarchy_respected O disk reg names
  ↔ ∀ a b sa sb,
      requires_edge O disk names a b →
      load O disk a = Ok sa → load O disk b = Ok sb →
      order_of reg (stacks.Category sb) ≤ order_of reg (stacks.Category sa).
Proof.
  intros Hp. split.
  - intros H a b sa sb (Ha & sa' & Hsa' & Hb) Hsa Hsb.
    assert (sa' = sa) by congruence. subst. by eapply H.
  - intros H a sa b sb Ha Hsa Hb Hsb. eapply (H a b); [|done..].
    split; [done|]. by exists sa.
Qed.

(** ** C7: the deployment order *)

Lemma ltb_false_le a b : String.ltb b a = false ↔ (a ≤ b)%string.
Proof.
  unfold String.le, String.ltb, String.leb.
  rewrite (String.compare_antisym a b).
  destruct (String.compare b a); simpl; split; done.
Qed.

Section order.
Variable O : MapOrder.
Variable disk : stacks.Disk.
Variable reg : categories.Registry.
Abbreviation info := (stack_info O disk reg).
Abbreviation key := (deploy_key O disk reg).
Abbreviation dle := (deploy_le O disk reg).

Lemma info_name n : stacks.SName (info n) = n.
Proof. unfold stack_info. by destruct (load O disk n). Qed.

Lemma not_after_info a b : stacks.not_after stacks.less (info a) (info b) ↔ dle a b.
Proof.
  unfold stacks.not_after, stacks.less, deploy_le, deploy_key.
  rewrite !info_name. case_decide as Hne.
  - rewrite bool_decide_eq_false. split; [lia|]. intros [?|[? _]]; [lia|congruence].
  - rewrite ltb_false_le.
    split; [intros ?; right; by split|]. intros [?|[_ ?]]; [lia|done].
Qed.

#[local] Instance deploy_le_trans : Transitive dle.
Proof.
  intros a b c [?|[Hab ?]] [?|[Hbc ?]]; unfold deploy_le.
  - left. lia.
  - left. lia.
  - left. lia.
  - right. split; [lia|]. by etrans.
Qed.

#[local] Instance deploy_le_antisym : AntiSymm (=) dle.
Proof.
  intros a b [?|[? Hab]] [?|[? Hba]]; try lia. by apply (anti_symm String.le).
Qed.

#[local] Instance deploy_le_total : Total dle.
Proof.
  intros a b. unfold deploy_le.
  destruct (Z.lt_trichotomy (key a) (key b)) as [?|[?|?]]; [by left; left| |by right; left].
  destruct (total String.le a b); [left|right]; right; split; done.
Qed.

#[local] Instance not_after_less_total : Total (stacks.not_after stacks.less).
Proof.
  intros x y. unfold stacks.not_after, stacks.less.
  destruct (decide (stacks.SOrder y ≠ stacks.SOrder x)) as [Hne|Heq];
    destruct (decide (stacks.SOrder x ≠ stacks.SOrder y)) as [Hne'|Heq'];
    try (apply dec_stable in Heq; congruence);
    try (apply dec_stable in Heq'; congruence).
  - rewrite !bool_decide_eq_false. lia.
  - rewrite !ltb_false_le.
    destruct (total String.le (stacks.SName x) (stacks.SName y)); auto.
Qed.

Lemma Sorted_info (l : list string) :
  Sorted (stacks.not_after stacks.less) (info <$> l) → Sorted dle l.
Proof.
  induction l as [|a l IH]; [constructor|]. rewrite fmap_cons.
  inversion 1 as [|? ? Hs Hhd]; subst. constructor; [by apply IH|].
  destruct l as [|b l]; [constructor|]. rewrite fmap_cons in Hhd.
  inversion Hhd; subst. constructor. by apply not_after_info.
Qed.

(** A list that is a rearrangement of the recorded stacks is the record
    of its own names. *)
Lemma info_perm (names : list string) l :
  l ≡ₚ info <$> names → l = info <$> (stacks.SName <$> l).
Proof.
  intros Hp.
  assert (Hall : Forall (λ x, x = info (stacks.SName x)) l).
  { rewrite Hp. apply Forall_fmap, Forall_forall. intros n _. simpl.
    by rewrite info_name. }
  clear Hp. induction Hall as [|x l Hx _ IH]; [done|].
  rewrite !fmap_cons. by rewrite <- Hx, <- IH.
Qed.

Lemma info_names (names : list string) :
  stacks.SName <$> (info <$> names) = names.
Proof.
  induction names as [|n names IH]; [done|].
  rewrite !fmap_cons, info_name. by f_equal.
Qed.

(** However the library orders the slice, the names come out the same:
    a rearrangement of the recorded stacks that [less] does not
    contradict is the output of [sort_Slice]. *)
Lemma sort_Slice_any (names : list string) l :
  l ≡ₚ info <$> names → Sorted (stacks.not_after stacks.less) l →
  stacks.SName <$> l = stacks.SName <$> stacks.sort_Slice stacks.less (info <$> names).
Proof.
  intros Hp Hs.
  assert (Hp' : stacks.sort_Slice stacks.less (info <$> names) ≡ₚ info <$> names)
    by apply merge_sort_Permutation.
  assert (Hs' : Sorted (stacks.not_after stacks.less)
                  (stacks.sort_Slice stacks.less (info <$> names)))
    by (apply Sorted_merge_sort; apply _).
  apply (Sorted_unique dle).
  - apply Sorted_info. by rewrite <- (info_perm names).
  - apply Sorted_info. by rewrite <- (info_perm names).
  - by rewrite Hp, Hp'.
Qed.

Lemma load_infos_spec names acc reg1 :
  (∀ n, n ∈ names → ∃ s, load O disk n = Ok s) →
  same_categories reg reg1 →
  ∃ reg2, stacks.load_infos O disk names acc reg1
          = (Ok (acc ++ (info <$> names)), reg2) ∧ same_categories reg reg2.
Proof.
  revert acc reg1. induction names as [|n rest IH]; intros acc reg1 Hload Hsame.
  - exists reg1. simpl. by rewrite app_nil_r.
  - destruct (Hload n) as (s & Hs); [left|]. simpl. unfold bindM.
    rewrite (LoadStack_Ok _ _ _ _ _ Hs), GetOrder_spec.
    set (reg2 := categories.RegisterCategory _ (categories.RegisterCategory _ _)).
    assert (Hsame2 : same_categories reg reg2).
    { eapply same_categories_trans; [exact Hsame|].
      eapply same_categories_trans; apply same_categories_Register. }
    destruct (IH (acc ++ [{| stacks.SName := n; stacks.SCategory := stacks.Category s;
                             stacks.SOrder := order_of
                               (categories.RegisterCategory (stacks.Category s) reg1)
                               (stacks.Category s) |}]) reg2)
      as (reg3 & -> & Hsame3); [by intros; apply Hload; right|done|].
    exists reg3. split; [|done]. f_equal. f_equal.
    rewrite <- app_assoc. f_equal. simpl. f_equal.
    unfold stack_info. rewrite Hs. f_equal.
    rewrite order_of_RegisterCategory. by apply same_categories_order.
Qed.

Lemma SortByCategory_spec names :
  (∀ n, n ∈ names → ∃ s, load O disk n = Ok s) →
  ∃ sorted reg',
    stacks.SortByCategory O disk names reg = (Ok sorted, reg') ∧
    sorted ≡ₚ names ∧ Sorted dle sorted.
Proof.
  intros Hload. unfold stacks.SortByCategory, bindM.
  destruct (load_infos_spec names [] reg Hload (same_categories_refl reg))
    as (reg2 & -> & _).
  rewrite app_nil_l. eexists _, _. split; [done|].
  assert (Hp : stacks.sort_Slice stacks.less (info <$> names) ≡ₚ info <$> names)
    by apply merge_sort_Permutation.
  split.
  - by rewrite Hp, info_names.
  - apply Sorted_info. rewrite <- (info_perm names) by done.
    apply Sorted_merge_sort; apply _.
Qed.

End order.

(** C7. For enabled stacks whose manifests load, the category sorter
    returns a rearrangement of its input in which every stack deploys no
    later than every stack after it, by category order first and by name
    among equal orders; it is the only such arrangement, and every
    rearrangement of the input gives the same output. *)
Theorem SortByCategory_total_order O disk names reg :
  (∀ n, n ∈ names → ∃ s, load O disk n = Ok s) →
  ∃ sorted reg',
    stacks.SortByCategory O disk names reg = (Ok sorted, reg') ∧
    sorted ≡ₚ names ∧
    StronglySorted (deploy_le O disk reg) sorted ∧
    (∀ l, l ≡ₚ names → Sorted (deploy_le O disk reg) l → l = sorted) ∧
    (∀ names', names' ≡ₚ names →
       ∃ reg'', stacks.SortByCategory O disk names' reg = (Ok sorted, reg'')).
Proof.
  intros Hload.
  destruct (SortByCategory_spec O disk reg names Hload)
    as (sorted & reg' & Hrun & Hperm & Hsorted).
  pose proof (deploy_le_trans O disk reg) as Htrans.
  pose proof (deploy_le_antisym O disk reg) as Hanti.
  exists sorted, reg'. split_and!; [done|done| | |].
  - by apply Sorted_StronglySorted.
  - intros l Hl Hs. apply (Sorted_unique (deploy_le O disk reg)); [done|done|].
    by rewrite Hl, Hperm.
  - intros names' Hp'.
    destruct (SortByCategory_spec O disk reg names')
      as (sorted' & reg'' & Hrun' & Hperm' & Hsorted').
    { intros n Hn. apply Hload. by rewrite <- Hp'. }
    exists reg''. rewrite Hrun'. do 2 f_equal.
    apply (Sorted_unique (deploy_le O disk reg)); [done|done|].
    by rewrite Hperm', Hp', Hperm.
Qed.

Lemma SortByCategory_total_order_witness :
  (∀ n, n ∈ ["proxy"; "jelly"; "core"] →
        ∃ s, load stored_order samples.disk_tiers n = Ok s) ∧
  ∃ sorted reg',
    stacks.SortByCategory stored_order samples.disk_tiers
      ["proxy"; "jelly"; "core"] ∅ = (Ok sorted, reg') ∧
    sorted ≡ₚ ["proxy"; "jelly"; "core"] ∧
    StronglySorted (deploy_le stored_order samples.disk_tiers ∅) sorted ∧
    (∀ l, l ≡ₚ ["proxy"; "jelly"; "core"] →
          Sorted (deploy_le stored_order samples.disk_tiers ∅) l → l = sorted) ∧
    (∀ names', names' ≡ₚ ["proxy"; "jelly"; "core"] →
       ∃ reg'', stacks.SortByCategory stored_order samples.disk_tiers names' ∅
                = (Ok sorted, reg'')).
Proof.
  assert (H : ∀ n, n ∈ ["proxy"; "jelly"; "core"] →
                ∃ s, load stored_order samples.disk_tiers n = Ok s).
  { apply (present_loads _ _ ["proxy"; "jelly"; "core"]), presentb_present.
    vm_compute; reflexivity. }
  split; [exact H|].
  exact (SortByCategory_total_order stored_order samples.disk_tiers
           ["proxy"; "jelly"; "core"] ∅ H).
Defined.

Example sort_tiers :
  (stacks.SortByCategory stored_order samples.disk_tiers
     ["proxy"; "jelly"; "core"] ∅).1 = Ok ["core"; "proxy"; "jelly"].
Proof. vm_compute. reflexivity. Qed.

Example sort_same_category :
  (stacks.SortByCategory stored_order samples.disk_chain ["web"; "app"; "db"] ∅).1
  = Ok ["app"; "db"; "web"].
Proof. vm_compute. reflexivity. Qed.

(** ** Merging compose fragments *)

Lemma list_to_map_range {V} (O : MapOrder) (m : gmap string V) :
  list_to_map (range O m) = m.
Proof.
  rewrite (list_to_map_proper _ (map_to_list m)).
  - apply list_to_map_to_list.
  - apply range_NoDup_keys.
  - apply range_perm.
Qed.

Section compose_merge.
Variable O : MapOrder.
Variable disk : compose.Files.
Variable differ : Value → Value → bool.

Lemma merge_services_spec entries m :
  NoDup entries.*1 →
  match compose.merge_services entries m with
  | Ok m' =>
      (∀ n, n ∈ entries.*1 → compose.Services m !! n = None) ∧
      compose.Services m' = list_to_map entries ∪ compose.Services m ∧
      compose.Volumes m' = compose.Volumes m ∧
      compose.Networks m' = compose.Networks m
  | Err e =>
      ∃ n, e = ErrDuplicateService n ∧ n ∈ entries.*1 ∧
           is_Some (compose.Services m !! n)
  end.
Proof.
  revert m. induction entries as [|[k v] rest IH]; intros m Hnd.
  - simpl. split_and!; [by intros ? ?%elem_of_nil| |done|done].
    by rewrite (left_id_L ∅ (∪)).
  - rewrite fmap_cons in Hnd. apply NoDup_cons in Hnd as [Hk Hnd]. simpl in Hk.
    cbn [compose.merge_services].
    destruct (compose.Services m !! k) as [old|] eqn:Hm.
    + exists k. split_and!; [done|left|by eexists].
    + specialize (IH (compose.with_services m (<[k:=v]> (compose.Services m))) Hnd).
      destruct (compose.merge_services rest _) as [m'|e].
      * destruct IH as (Hfresh & Hs & Hv & Hn). simpl in *.
        split_and!; [|  |done|done].
        -- intros n [->|Hin]%elem_of_cons; [done|].
           specialize (Hfresh n Hin). destruct (decide (k = n)) as [->|Hne].
           ++ by rewrite lookup_insert_eq in Hfresh.
           ++ by rewrite lookup_insert_ne in Hfresh.
        -- rewrite Hs. rewrite <- insert_union_l. symmetry.
           apply insert_union_r. by apply not_elem_of_list_to_map.
      * destruct IH as (n & -> & Hin & Hsome). simpl in Hsome.
        exists n. split_and!; [done|by right|].
        destruct (decide (k = n)) as [->|Hne]; [done|].
        by rewrite lookup_insert_ne in Hsome.
Qed.

Lemma volume_step file m log k v :
  let st := compose.merge_volume differ file (m, log) (k, v) in
  compose.Services st.1 = compose.Services m ∧
  compose.Networks st.1 = compose.Networks m ∧
  compose.Volumes st.1
  = match compose.Volumes m !! k with
    | Some _ => compose.Volumes m
    | None => <[k := v]> (compose.Volumes m)
    end.
Proof.
  unfold compose.merge_volume.
  by destruct (compose.Volumes m !! k) as [old|] eqn:Hm.
Qed.

Lemma volumes_loop file entries m log :
  NoDup entries.*1 →
  let st := foldl (compose.merge_volume differ file) (m, log) entries in
  compose.Services st.1 = compose.Services m ∧
  compose.Networks st.1 = compose.Networks m ∧
  ∀ n, compose.Volumes st.1 !! n
       = match compose.Volumes m !! n with
         | Some v => Some v
         | None => (list_to_map entries : gmap string Value) !! n
         end.
Proof.
  revert m log. induction entries as [|[k v] rest IH]; intros m log Hnd.
  - simpl. split_and!; [done|done|]. intros n. rewrite lookup_empty.
    by destruct (compose.Volumes m !! n).
  - rewrite fmap_cons in Hnd. apply NoDup_cons in Hnd as [Hk Hnd]. simpl in Hk.
    cbn [foldl].
    destruct (volume_step file m log k v) as (Hs1 & Hn1 & Hv1).
    destruct (compose.merge_volume differ file (m, log) (k, v)) as [m1 log1].
    simpl in Hs1, Hn1, Hv1.
    destruct (IH m1 log1 Hnd) as (Hs & Hn & Hv).
    split_and!; [congruence|congruence|].
    intros n. rewrite Hv, Hv1, list_to_map_cons. simpl.
    destruct (compose.Volumes m !! k) as [old|] eqn:Hm.
    + destruct (compose.Volumes m !! n) eqn:Hmn; [done|].
      rewrite lookup_insert_ne; [done|]. intros ->. congruence.
    + destruct (decide (k = n)) as [->|Hne].
      * by rewrite !lookup_insert_eq, Hm.
      * by rewrite !lookup_insert_ne.
Qed.

Lemma network_step file m log k v :
  let st := compose.merge_network file (m, log) (k, v) in
  compose.Services st.1 = compose.Services m ∧
  compose.Volumes st.1 = compose.Volumes m ∧
  compose.Networks st.1
  = <[k := combine_network (compose.Networks m !! k) v]> (compose.Networks m).
Proof.
  unfold compose.merge_network, combine_network.
  destruct (compose.Networks m !! k) as [old|] eqn:Hm; [|done].
  destruct (compose.isExternal v), (compose.isExternal old); simpl;
    split_and!; try done; by rewrite insert_id.
Qed.

Lemma networks_loop file entries m log :
  NoDup entries.*1 →
  let st := foldl (compose.merge_network file) (m, log) entries in
  compose.Services st.1 = compose.Services m ∧
  compose.Volumes st.1 = compose.Volumes m ∧
  ∀ n, compose.Networks st.1 !! n
       = match (list_to_map entries : gmap string Value) !! n with
         | Some v => Some (combine_network (compose.Networks m !! n) v)
         | None => compose.Networks m !! n
         end.
Proof.
  revert m log. induction entries as [|[k v] rest IH]; intros m log Hnd.
  - simpl. split_and!; [done|done|]. intros n. by rewrite lookup_empty.
  - rewrite fmap_cons in Hnd. apply NoDup_cons in Hnd as [Hk Hnd]. simpl in Hk.
    cbn [foldl].
    destruct (network_step file m log k v) as (Hs1 & Hv1 & Hn1).
    destruct (compose.merge_network file (m, log) (k, v)) as [m1 log1].
    simpl in Hs1, Hv1, Hn1.
    destruct (IH m1 log1 Hnd) as (Hs & Hv & Hn).
    split_and!; [congruence|congruence|].
    intros n. rewrite Hn, Hn1, list_to_map_cons. simpl.
    destruct (decide (k = n)) as [->|Hne].
    + rewrite !lookup_insert_eq.
      by rewrite (not_elem_of_list_to_map_1 _ _ Hk).
    + by rewrite !lookup_insert_ne.
Qed.

End compose_merge.

Section compose_files.
Variable O : MapOrder.
Variable disk : compose.Files.
Variable differ : Value → Value → bool.

(** One fragment merged into what was merged before. *)
Lemma merge_fragment_spec file c m log :
  match compose.merge_services (range O (compose.Services c)) m with
  | Err e =>
      ∃ n, e = ErrDuplicateService n ∧ is_Some (compose.Services c !! n) ∧
           is_Some (compose.Services m !! n)
  | Ok m1 =>
      let st := foldl (compose.merge_network file)
                  (foldl (compose.merge_volume differ file) (m1, log)
                     (range O (compose.Volumes c)))
                  (range O (compose.Networks c)) in
      (∀ n, is_Some (compose.Services c !! n) → compose.Services m !! n = None) ∧
      (∀ n, compose.Services st.1 !! n
            = match compose.Services m !! n with
              | Some v => Some v
              | None => compose.Services c !! n
              end) ∧
      (∀ n, compose.Volumes st.1 !! n
            = match compose.Volumes m !! n with
              | Some v => Some v
              | None => compose.Volumes c !! n
              end) ∧
      (∀ n, compose.Networks st.1 !! n
            = match compose.Networks c !! n with
              | Some v => Some (combine_network (compose.Networks m !! n) v)
              | None => compose.Networks m !! n
              end)
  end.
Proof.
  pose proof (merge_services_spec (range O (compose.Services c)) m
                (range_NoDup_keys O _)) as Hsvc.
  destruct (compose.merge_services _ m) as [m1|e].
  - destruct Hsvc as (Hfresh & Hs & Hv & Hn).
    rewrite list_to_map_range in Hs.
    destruct (volumes_loop differ file (range O (compose.Volumes c)) m1 log
                (range_NoDup_keys O _)) as (Hs2 & Hn2 & Hv2).
    destruct (foldl (compose.merge_volume differ file) _ _) as [m2 log2].
    simpl in Hs2, Hn2, Hv2.
    destruct (networks_loop file (range O (compose.Networks c)) m2 log2
                (range_NoDup_keys O _)) as (Hs3 & Hv3 & Hn3).
    rewrite list_to_map_range in Hv2. rewrite list_to_map_range in Hn3.
    split_and!.
    + intros n Hc. apply Hfresh. by apply range_keys.
    + intros n. rewrite Hs3, Hs2, Hs, lookup_union.
      destruct (compose.Services m !! n) as [v|] eqn:Hm.
      * assert (compose.Services c !! n = None) as ->; [|done].
        destruct (compose.Services c !! n) eqn:Hc; [|done].
        rewrite Hfresh in Hm; [done|]. apply range_keys. by eexists.
      * by destruct (compose.Services c !! n).
    + intros n. by rewrite Hv3, Hv2, Hv.
    + intros n. by rewrite Hn3, Hn2, Hn.
  - destruct Hsvc as (n & -> & Hin & Hm). exists n.
    split_and!; [done| |done]. by apply (range_keys O).
Qed.

Lemma defined_twice_merged m c m1 cs n :
  (is_Some (compose.Services m1 !! n) →
   is_Some (compose.Services m !! n) ∨ is_Some (compose.Services c !! n)) →
  defined_twice (m1 :: cs) n → defined_twice (m :: c :: cs) n.
Proof.
  intros Hm1 (i & j & ci & cj & Hlt & Hi & Hj & Hci & Hcj).
  destruct j as [|j]; [lia|]. destruct i as [|i].
  - simplify_eq/=. destruct (Hm1 Hci) as [Hm|Hc].
    + exists 0%nat, (S (S j)), m, cj. split_and!; [lia|done..].
    + exists 1%nat, (S (S j)), c, cj. split_and!; [lia|done..].
  - exists (S (S i)), (S (S j)), ci, cj. split_and!; [lia|done..].
Qed.

Lemma defined_twice_unmerged m c m1 cs n :
  (is_Some (compose.Services m !! n) ∨ is_Some (compose.Services c !! n) →
   is_Some (compose.Services m1 !! n)) →
  defined_twice (m :: c :: cs) n →
  (is_Some (compose.Services m !! n) ∧ is_Some (compose.Services c !! n))
  ∨ defined_twice (m1 :: cs) n.
Proof.
  intros Hm1 (i & j & ci & cj & Hlt & Hi & Hj & Hci & Hcj).
  destruct j as [|[|j]]; [lia| |].
  - assert (i = 0%nat) as -> by lia. simplify_eq/=. by left.
  - right. destruct i as [|[|i]]; simplify_eq/=.
    + exists 0%nat, (S j), m1, cj. split_and!; [lia|done|done|auto|done].
    + exists 0%nat, (S j), m1, cj. split_and!; [lia|done|done|auto|done].
    + exists (S i), (S j), ci, cj. split_and!; [lia|done..].
Qed.

Lemma merge_files_spec files frags m log :
  loaded disk files frags →
  match (compose.merge_files O disk differ files m log).1 with
  | Ok m' =>
      (∀ n, ¬ defined_twice (m :: frags) n) ∧
      (∀ n, compose.Services m' !! n = first_def compose.Services (m :: frags) n) ∧
      (∀ n, compose.Volumes m' !! n = first_def compose.Volumes (m :: frags) n) ∧
      (∀ n, compose.Networks m' !! n = net_fold (compose.Networks m !! n) frags n)
  | Err e => ∃ n, e = ErrDuplicateService n ∧ defined_twice (m :: frags) n
  end.
Proof.
  intros Hl. revert m log.
  induction Hl as [|file c files frags Hfile Hl IH]; intros m log.
  - simpl. split_and!.
    + intros n (i & j & ci & cj & Hlt & Hi & Hj & _).
      destruct j as [|j]; [lia|]. done.
    + intros n. by destruct (compose.Services m !! n).
    + intros n. by destruct (compose.Volumes m !! n).
    + done.
  - cbn [compose.merge_files]. rewrite Hfile.
    pose proof (merge_fragment_spec file c m log) as Hfrag.
    destruct (compose.merge_services _ m) as [m1|e].
    + set (st := foldl (compose.merge_network file) _ _) in *.
      destruct Hfrag as (Hfresh & Hs & Hv & Hn).
      specialize (IH st.1 st.2).
      destruct (compose.merge_files O disk differ files st.1 st.2).1 as [m'|e].
      * destruct IH as (Hno & Hs' & Hv' & Hn'). split_and!.
        -- intros n Htwice.
           apply (defined_twice_unmerged m c st.1) in Htwice as [[Hm Hc]|Ht].
           ++ rewrite (Hfresh n Hc) in Hm. by destruct Hm.
           ++ by apply (Hno n).
           ++ rewrite Hs. intros [[v ->]|[v Hc]]; [by eexists|].
              destruct (compose.Services m !! n); by eexists.
        -- intros n. rewrite Hs'. simpl. rewrite Hs.
           by destruct (compose.Services m !! n), (compose.Services c !! n).
        -- intros n. rewrite Hv'. simpl. rewrite Hv.
           by destruct (compose.Volumes m !! n), (compose.Volumes c !! n).
        -- intros n. rewrite Hn'. simpl. by rewrite Hn.
      * destruct IH as (n & -> & Ht). exists n. split; [done|].
        apply (defined_twice_merged m c st.1); [|done].
        rewrite Hs. destruct (compose.Services m !! n); [by left; eexists|by right].
    + simpl. destruct Hfrag as (n & -> & Hc & Hm). exists n. split; [done|].
      exists 0%nat, 1%nat, m, c. split_and!; [lia|done..].
Qed.

End compose_files.

Lemma defined_twice_empty frags n :
  defined_twice (compose.empty :: frags) n ↔ defined_twice frags n.
Proof.
  split.
  - intros (i & j & ci & cj & Hlt & Hi & Hj & Hci & Hcj).
    destruct j as [|j]; [lia|]. destruct i as [|i].
    + simplify_eq/=. rewrite lookup_empty in Hci. by destruct Hci.
    + exists i, j, ci, cj. split_and!; [lia|done..].
  - intros (i & j & ci & cj & Hlt & Hi & Hj & Hci & Hcj).
    exists (S i), (S j), ci, cj. split_and!; [lia|done..].
Qed.

(** The network the policy keeps, folded over the fragments in order. *)
Lemma net_fold_chosen acc frags n :
  net_fold acc frags n
  = match acc with
    | Some e =>
        if compose.isExternal e
        then match first_owned frags n with
             | Some v => Some v
             | None => Some e
             end
        else Some e
    | None => chosen_network frags n
    end.
Proof.
  revert acc. induction frags as [|c cs IH]; intros acc.
  - simpl. destruct acc as [e|]; [|done]. by destruct (compose.isExternal e).
  - cbn [net_fold]. rewrite IH. unfold chosen_network. cbn [first_owned first_def].
    destruct (compose.Networks c !! n) as [v|] eqn:Hc; [|done].
    destruct acc as [e|]; simpl.
    + destruct (compose.isExternal e) eqn:He, (compose.isExternal v) eqn:Hv;
        simpl; rewrite ?He, ?Hv; done.
    + destruct (compose.isExternal v) eqn:Hv; [|done].
      by destruct (first_owned cs n).
Qed.

Lemma first_def_Some sel frags n v :
  first_def sel frags n = Some v →
  ∃ i c, frags !! i = Some c ∧ sel c !! n = Some v.
Proof.
  induction frags as [|c cs IH]; [done|]. simpl.
  destruct (sel c !! n) as [w|] eqn:Hc.
  - intros [= <-]. by exists 0%nat, c.
  - intros (i & c' & ? & ?)%IH. by exists (S i), c'.
Qed.

Lemma first_def_owner frags n i c v :
  (∀ n, ¬ defined_twice frags n) →
  frags !! i = Some c → compose.Services c !! n = Some v →
  first_def compose.Services frags n = Some v.
Proof.
  intros Hno Hi Hc.
  destruct (first_def compose.Services frags n) as [w|] eqn:Hf.
  - apply first_def_Some in Hf as (j & cj & Hj & Hcj).
    destruct (Nat.lt_trichotomy i j) as [Hlt|[->|Hlt]].
    + destruct (Hno n). exists i, j, c, cj. split_and!; [done|done|done|by eexists..].
    + congruence.
    + destruct (Hno n). exists j, i, cj, c. split_and!; [done|done|done|by eexists..].
  - exfalso. revert i Hi. clear Hno. induction frags as [|c' cs IH]; intros i Hi; [done|].
    simpl in Hf. destruct (compose.Services c' !! n) eqn:Hc'; [done|].
    destruct i as [|i]; simplify_eq/=. by eapply IH.
Qed.

Lemma MergeComposeFiles_spec O disk differ files frags :
  loaded disk files frags →
  match (compose.MergeComposeFiles O disk differ files).1 with
  | Ok merged =>
      (∀ n, ¬ defined_twice frags n) ∧
      (∀ n, compose.Services merged !! n = first_def compose.Services frags n) ∧
      (∀ n, compose.Volumes merged !! n = first_def compose.Volumes frags n) ∧
      (∀ n, compose.Networks merged !! n = chosen_network frags n)
  | Err e => ∃ n, e = ErrDuplicateService n ∧ defined_twice frags n
  end.
Proof.
  intros Hl. unfold compose.MergeComposeFiles.
  pose proof (merge_files_spec O disk differ files frags compose.empty [] Hl) as H.
  destruct (compose.merge_files _ _ _ _ _ _).1 as [m|e].
  - destruct H as (Hno & Hs & Hv & Hn). split_and!.
    + intros n Ht. apply (Hno n). by apply defined_twice_empty.
    + intros n. rewrite Hs. simpl. by rewrite lookup_empty.
    + intros n. rewrite Hv. simpl. by rewrite lookup_empty.
    + intros n. rewrite Hn. simpl. rewrite lookup_empty. apply net_fold_chosen.
  - destruct H as (n & -> & Ht). exists n. split; [done|].
    by apply defined_twice_empty.
Qed.

(** When every file parses, the merge fails exactly when some service
    name is defined by two fragments, and then with the duplicate-service
    error for such a name; when it succeeds the services of the output
    are those of the fragments, each defined by one fragment only. *)
Theorem MergeComposeFiles_services O disk differ files frags :
  loaded disk files frags →
  ((∃ n, defined_twice frags n) →
   ∃ n log, compose.MergeComposeFiles O disk differ files
            = (Err (ErrDuplicateService n), log) ∧ defined_twice frags n)
  ∧ ((∀ n, ¬ defined_twice frags n) →
     ∃ merged log, compose.MergeComposeFiles O disk differ files = (Ok merged, log))
  ∧ (∀ merged log,
       compose.MergeComposeFiles O disk differ files = (Ok merged, log) →
       (∀ n, ¬ defined_twice frags n) ∧
       ∀ n v, compose.Services merged !! n = Some v
              ↔ ∃ i c, frags !! i = Some c ∧ compose.Services c !! n = Some v).
Proof.
  intros Hl. pose proof (MergeComposeFiles_spec O disk differ files frags Hl) as H.
  destruct (compose.MergeComposeFiles O disk differ files) as [[merged|e] log];
    simpl in H.
  - destruct H as (Hno & Hs & _). split_and!.
    + intros [n Hn]. by destruct (Hno n).
    + intros _. by eexists _, _.
    + intros ? ? [= <- <-]. split; [done|]. intros n v. rewrite Hs. split.
      * apply first_def_Some.
      * intros (i & c & Hi & Hc). by eapply first_def_owner.
  - destruct H as (n & -> & Ht). split_and!.
    + intros _. by exists n, log.
    + intros Hno. by destruct (Hno n).
    + by intros ? ? [=].
Qed.

Lemma loaded_sample :
  loaded samples.rendered
    ["runtime/core-compose.yml"; "runtime/mon-compose.yml"]
    [samples.core_fragment; samples.mon_fragment].
Proof. repeat constructor. Qed.

Lemma MergeComposeFiles_services_witness :
  loaded samples.rendered
    ["runtime/core-compose.yml"; "runtime/mon-compose.yml"]
    [samples.core_fragment; samples.mon_fragment] ∧
  ∀ merged log,
    compose.MergeComposeFiles stored_order samples.rendered samples.always_differ
      ["runtime/core-compose.yml"; "runtime/mon-compose.yml"] = (Ok merged, log) →
    (∀ n, ¬ defined_twice [samples.core_fragment; samples.mon_fragment] n) ∧
    ∀ n v, compose.Services merged !! n = Some v
           ↔ ∃ i c, [samples.core_fragment; samples.mon_fragment] !! i = Some c ∧
                    compose.Services c !! n = Some v.
Proof.
  split; [exact loaded_sample|].
  exact (proj2 (proj2 (MergeComposeFiles_services stored_order samples.rendered
                         samples.always_differ _ _ loaded_sample))).
Defined.

(** Scenario S6 on the code. *)
Example merge_scenario_S6 :
  (compose.MergeComposeFiles stored_order samples.rendered samples.always_differ
     ["runtime/core-compose.yml"; "runtime/mon-compose.yml";
      "runtime/clash-compose.yml"]).1
  = Err (ErrDuplicateService "traefik").
Proof. vm_compute. reflexivity. Qed.

(** Volumes: when the merge succeeds, every volume of the output has the
    definition of the first fragment, in the order of the files, that
    declares it. *)
Theorem MergeComposeFiles_volumes_first_wins O disk differ files frags merged log :
  loaded disk files frags →
  compose.MergeComposeFiles O disk differ files = (Ok merged, log) →
  ∀ n, compose.Volumes merged !! n = first_def compose.Volumes frags n.
Proof.
  intros Hl Hrun.
  pose proof (MergeComposeFiles_spec O disk differ files frags Hl) as H.
  rewrite Hrun in H. simpl in H. tauto.
Qed.

(** Networks: when the merge succeeds, every network of the output has
    the definition of the first fragment that declares it without
    [external: true], or, when all declarations are external, the first
    declaration. *)
Theorem MergeComposeFiles_networks_policy O disk differ files frags merged log :
  loaded disk files frags →
  compose.MergeComposeFiles O disk differ files = (Ok merged, log) →
  ∀ n, compose.Networks merged !! n = chosen_network frags n.
Proof.
  intros Hl Hrun.
  pose proof (MergeComposeFiles_spec O disk differ files frags Hl) as H.
  rewrite Hrun in H. simpl in H. tauto.
Qed.

Lemma sample_merge_runs :
  ∃ merged log,
    compose.MergeComposeFiles stored_order samples.rendered samples.always_differ
      ["runtime/core-compose.yml"; "runtime/mon-compose.yml"] = (Ok merged, log).
Proof. eexists _, _. vm_compute. reflexivity. Defined.

Lemma MergeComposeFiles_volumes_first_wins_witness :
  ∃ merged log,
    compose.MergeComposeFiles stored_order samples.rendered samples.always_differ
      ["runtime/core-compose.yml"; "runtime/mon-compose.yml"] = (Ok merged, log) ∧
    ∀ n, compose.Volumes merged !! n
         = first_def compose.Volumes [samples.core_fragment; samples.mon_fragment] n.
Proof.
  destruct sample_merge_runs as (merged & log & Hrun).
  exists merged, log. split; [exact Hrun|].
  exact (MergeComposeFiles_volumes_first_wins stored_order samples.rendered
           samples.always_differ _ _ merged log loaded_sample Hrun).
Defined.

Lemma MergeComposeFiles_networks_policy_witness :
  ∃ merged log,
    compose.MergeComposeFiles stored_order samples.rendered samples.always_differ
      ["runtime/core-compose.yml"; "runtime/mon-compose.yml"] = (Ok merged, log) ∧
    ∀ n, compose.Networks merged !! n
         = chosen_network [samples.core_fragment; samples.mon_fragment] n.
Proof.
  destruct sample_merge_runs as (merged & log & Hrun).
  exists merged, log. split; [exact Hrun|].
  exact (MergeComposeFiles_networks_policy stored_order samples.rendered
           samples.always_differ _ _ merged log loaded_sample Hrun).
Defined.

(** The sample run: the creating definition of [proxy] and the first
    definition of [shared] are kept, and the second [shared] is reported
    as a conflict. *)
Example sample_merge_result :
  ∃ merged,
    compose.MergeComposeFiles stored_order samples.rendered samples.always_differ
      ["runtime/core-compose.yml"; "runtime/mon-compose.yml"]
    = (Ok merged,
       [compose.WarnDuplicateVolume "shared" "runtime/mon-compose.yml";
        compose.WarnVolumeConflict "shared" (VMap ∅)
          (VMap (<["driver" := VStr "local"]> ∅))]) ∧
    compose.Networks merged !! "proxy" = Some (VMap ∅) ∧
    compose.Volumes merged !! "shared" = Some (VMap ∅) ∧
    size (compose.Services merged) = 3%nat.
Proof. eexists. split; [vm_compute; reflexivity|]. by vm_compute. Qed.

(** *** Files that cannot be read or parsed *)

Lemma merge_files_app O disk differ pre post m log :
  compose.merge_files O disk differ (pre ++ post) m log
  = match compose.merge_files O disk differ pre m log with
    | (Ok m', log') => compose.merge_files O disk differ post m' log'
    | (Err e, log') => (Err e, log')
    end.
Proof.
  revert m log. induction pre as [|f pre IH]; intros m log; [done|].
  cbn [app compose.merge_files].
  destruct (disk !! f) as [[|c]|]; [done| |done].
  destruct (compose.merge_services _ m) as [m1|e]; [|done]. apply IH.
Qed.

(** The merge stops at the first file that cannot be read or does not
    parse, when the files before it merge: the error names that file. *)
Theorem MergeComposeFiles_bad_file O disk differ pre file post frags :
  loaded disk pre frags →
  (∀ n, ¬ defined_twice frags n) →
  (disk !! file = None →
   (compose.MergeComposeFiles O disk differ (pre ++ file :: post)).1
   = Err (ErrReadCompose file))
  ∧ (disk !! file = Some compose.Unparseable →
     (compose.MergeComposeFiles O disk differ (pre ++ file :: post)).1
     = Err (ErrParseCompose file)).
Proof.
  intros Hl Hno.
  destruct (proj1 (proj2 (MergeComposeFiles_services O disk differ pre frags Hl)) Hno)
    as (m & log & Hrun).
  unfold compose.MergeComposeFiles in *. rewrite merge_files_app, Hrun.
  cbn [compose.merge_files]. split; intros ->; done.
Qed.

Lemma MergeComposeFiles_bad_file_witness :
  loaded samples.rendered ["runtime/core-compose.yml"] [samples.core_fragment] ∧
  (∀ n, ¬ defined_twice [samples.core_fragment] n) ∧
  samples.rendered !! "runtime/broken-compose.yml" = Some compose.Unparseable ∧
  (compose.MergeComposeFiles stored_order samples.rendered samples.always_differ
     (["runtime/core-compose.yml"] ++ "runtime/broken-compose.yml"
        :: ["runtime/mon-compose.yml"])).1
  = Err (ErrParseCompose "runtime/broken-compose.yml").
Proof.
  assert (Hl : loaded samples.rendered ["runtime/core-compose.yml"]
                 [samples.core_fragment]) by (repeat constructor).
  assert (Hno : ∀ n, ¬ defined_twice [samples.core_fragment] n).
  { intros n (i & j & ci & cj & Hlt & Hi & Hj & _).
    destruct j as [|j]; [lia|]. destruct i; done. }
  assert (Hb : samples.rendered !! "runtime/broken-compose.yml"
               = Some compose.Unparseable) by (vm_compute; reflexivity).
  split_and!; [exact Hl|exact Hno|exact Hb|].
  exact (proj2 (MergeComposeFiles_bad_file stored_order samples.rendered
                  samples.always_differ _ "runtime/broken-compose.yml"
                  ["runtime/mon-compose.yml"] _ Hl Hno) Hb).
Defined.

(** *** Removing disabled services *)

Lemma disabled_map_spec (l : list string) n :
  compose.is_disabled (foldl (λ m svc, <[svc := true]> m) ∅ l) n = true ↔ n ∈ l.
Proof. apply is_enabled_spec. Qed.

Lemma filter_loop (disabled : gmap string bool) (names : list string)
    (c : compose.ComposeFile) (removed : list string) :
  let st := foldl (λ st name,
                     if compose.is_disabled disabled name
                     then (compose.with_services st.1
                             (delete name (compose.Services st.1)),
                           st.2 ++ [name])
                     else st) (c, removed) names in
  (∀ n, compose.Services st.1 !! n
        = if decide (n ∈ names ∧ compose.is_disabled disabled n = true)
          then None else compose.Services c !! n) ∧
  compose.Volumes st.1 = compose.Volumes c ∧
  compose.Networks st.1 = compose.Networks c ∧
  st.2 = removed ++ filter (λ n, compose.is_disabled disabled n = true) names.
Proof.
  revert c removed. induction names as [|name rest IH]; intros c removed.
  - cbn [foldl fst snd]. split_and!; [|done|done|by rewrite app_nil_r].
    intros n. rewrite decide_False; [done|]. by intros [?%elem_of_nil _].
  - cbn [foldl fst snd]. destruct (compose.is_disabled disabled name) eqn:Hd;
      cbn [fst snd].
    + destruct (IH (compose.with_services c (delete name (compose.Services c)))
                   (removed ++ [name])) as (Hs & Hv & Hn & Hr).
      split_and!; [|done|done|].
      * intros n. rewrite Hs. simpl.
        destruct (decide (name = n)) as [->|Hne].
        -- rewrite lookup_delete_eq.
           rewrite (decide_True (P := n ∈ n :: rest ∧ _)).
           ++ by case_decide.
           ++ split; [left|done].
        -- rewrite lookup_delete_ne by done.
           apply decide_ext. rewrite elem_of_cons. naive_solver.
      * rewrite Hr, filter_cons_True by done. by rewrite <- app_assoc.
    + destruct (IH c removed) as (Hs & Hv & Hn & Hr).
      split_and!; [|done|done|].
      * intros n. rewrite Hs. apply decide_ext. rewrite elem_of_cons.
        split; [naive_solver|]. intros [[->|?] ?]; [congruence|done].
      * rewrite Hr, filter_cons_False; [done|]. congruence.
Qed.

(** After the filter no service of the disabled list is left, the other
    services, the volumes and the networks are as before, and the returned
    names are, each once, the disabled names that were services. *)
Theorem FilterDisabledServices_spec O (c : compose.ComposeFile)
    (disabledServices : list string) :
  let out := compose.FilterDisabledServices O c disabledServices in
  (∀ n, compose.Services out.1 !! n
        = if decide (n ∈ disabledServices) then None else compose.Services c !! n) ∧
  compose.Volumes out.1 = compose.Volumes c ∧
  compose.Networks out.1 = compose.Networks c ∧
  (∀ n, n ∈ out.2 ↔ n ∈ disabledServices ∧ is_Some (compose.Services c !! n)) ∧
  NoDup out.2.
Proof.
  unfold compose.FilterDisabledServices. case_decide as Hlen.
  - destruct disabledServices; [|done]. cbn [fst snd].
    split_and!; [|done|done| |constructor].
    + intros n. rewrite decide_False; [done|]. by intros ?%elem_of_nil.
    + intros n. split; [by intros ?%elem_of_nil|]. by intros [?%elem_of_nil _].
  - set (disabled := foldl _ ∅ disabledServices).
    destruct (filter_loop disabled (range O (compose.Services c)).*1 c [])
      as (Hs & Hv & Hn & Hr).
    split_and!; [|done|done| |].
    + intros n. rewrite Hs.
      destruct (decide (n ∈ disabledServices)) as [Hin|Hnin].
      * destruct (compose.Services c !! n) as [v|] eqn:Hc.
        -- rewrite decide_True; [done|]. split.
           ++ apply range_keys. by eexists.
           ++ by apply disabled_map_spec.
        -- by case_decide.
      * rewrite decide_False; [done|]. intros [_ Hd%disabled_map_spec]. done.
    + intros n. rewrite Hr, app_nil_l, list_elem_of_filter, range_keys.
      unfold disabled. rewrite disabled_map_spec. tauto.
    + rewrite Hr, app_nil_l. apply NoDup_filter, range_NoDup_keys.
Qed.

(** ** The disabled-services state *)

Lemma contains_spec l name : inventory.contains l name = true ↔ name ∈ l.
Proof.
  induction l as [|s l IH]; simpl.
  - split; [done|by intros ?%elem_of_nil].
  - rewrite elem_of_cons. case_decide; subst; [tauto|].
    rewrite IH. split; [tauto|]. intros [?|?]; [congruence|done].
Qed.

Lemma contains_false l name : inventory.contains l name = false ↔ ¬ name ∈ l.
Proof. rewrite <- contains_spec. by destruct (inventory.contains l name). Qed.

Lemma remove_service_loop (name : string) (l : list string)
    (found : bool) (acc : list string) :
  foldl (λ (st : bool * list string) (s : string),
           if decide (s = name) then (true, st.2) else (st.1, st.2 ++ [s]))
        (found, acc) l
  = (found || bool_decide (name ∈ l), acc ++ filter (λ s, s ≠ name) l).
Proof.
  revert found acc. induction l as [|s l IH]; intros found acc.
  - cbn [foldl]. rewrite filter_nil, app_nil_r.
    rewrite bool_decide_eq_false_2 by (by intros ?%elem_of_nil).
    by rewrite orb_false_r.
  - cbn [foldl fst snd]. destruct (decide (s = name)) as [->|Hs].
    + rewrite IH, filter_cons_False by (by intros ?).
      rewrite (bool_decide_eq_true_2 (name ∈ name :: l)) by left.
      by rewrite orb_true_r.
    + rewrite IH, filter_cons_True by done. rewrite <- app_assoc. f_equal.
      f_equal. apply bool_decide_ext. rewrite elem_of_cons.
      split; [tauto|]. intros [?|?]; [congruence|done].
Qed.

Lemma filter_all {A} (P : A → Prop) `{∀ x, Decision (P x)} (l : list A) :
  Forall P l → filter P l = l.
Proof.
  induction 1 as [|x l Hx _ IH]; [done|].
  by rewrite filter_cons_True, IH.
Qed.

Lemma remove_service_spec name l :
  inventory.remove_service name l
  = (bool_decide (name ∈ l), filter (λ s, s ≠ name) l).
Proof. unfold inventory.remove_service. by rewrite remove_service_loop. Qed.

Lemma LoadState_holds w l :
  state_holds w l → inventory.state_writable w = true →
  inventory.LoadState w = (Ok l, inventory.with_state w l).
Proof.
  intros [Hc|[Hm ->]] Hw; unfold inventory.LoadState, inventory.writeState.
  - rewrite Hc. f_equal. destruct w; simpl in *. by subst.
  - by rewrite Hm, Hw.
Qed.

Lemma writeState_with_state l l' w :
  inventory.state_writable w = true →
  inventory.writeState l' (inventory.with_state w l)
  = (Ok (), inventory.with_state w l').
Proof. intros Hw. unfold inventory.writeState. simpl. by rewrite Hw. Qed.

(** Disabling a service that is not on record succeeds and appends it;
    enabling it again succeeds and leaves the list that was there, in the
    same order. *)
Theorem disable_then_enable_restores w l x :
  state_holds w l → inventory.state_writable w = true → ¬ x ∈ l →
  inventory.DisableService x w = (Ok (), inventory.with_state w (l ++ [x])) ∧
  inventory.EnableService x (inventory.with_state w (l ++ [x]))
  = (Ok (), inventory.with_state w l).
Proof.
  intros Hl Hw Hx. split.
  - unfold inventory.DisableService. rewrite (LoadState_holds w l Hl Hw).
    rewrite (proj2 (contains_false l x) Hx). by apply writeState_with_state.
  - unfold inventory.EnableService, inventory.LoadState. simpl.
    rewrite remove_service_spec.
    rewrite bool_decide_eq_true_2 by (apply elem_of_app; right; left).
    unfold inventory.writeState. simpl. rewrite Hw.
    rewrite filter_app, filter_cons_False, filter_nil, app_nil_r by (by intros ?).
    unfold inventory.with_state. simpl. do 3 f_equal.
    apply filter_all. apply Forall_forall. intros s Hs ->. done.
Qed.

Lemma disable_then_enable_restores_witness :
  let w := {| inventory.vars_file := inventory.Content ∅;
              inventory.state_file := inventory.Content ["loki"];
              inventory.state_writable := true |} in
  state_holds w ["loki"] ∧ inventory.state_writable w = true ∧
  ¬ "grafana" ∈ ["loki"] ∧
  inventory.DisableService "grafana" w
  = (Ok (), inventory.with_state w (["loki"] ++ ["grafana"])) ∧
  inventory.EnableService "grafana"
    (inventory.with_state w (["loki"] ++ ["grafana"]))
  = (Ok (), inventory.with_state w ["loki"]).
Proof.
  intros w.
  assert (H1 : state_holds w ["loki"]) by (by left).
  assert (H2 : inventory.state_writable w = true) by reflexivity.
  assert (H3 : ¬ "grafana" ∈ ["loki"]).
  { intros [?|?%elem_of_nil]%elem_of_cons; done. }
  split_and!; [exact H1|exact H2|exact H3|..];
    apply (disable_then_enable_restores w ["loki"] "grafana" H1 H2 H3).
Defined.

(** Disabling a service that is on record, and enabling one that is not,
    fail and leave the files as they are. *)
Theorem disable_enable_refusals w l x :
  inventory.state_file w = inventory.Content l →
  (x ∈ l → inventory.DisableService x w = (Err (ErrAlreadyDisabled x), w))
  ∧ (¬ x ∈ l → inventory.EnableService x w = (Err (ErrNotDisabled x), w)).
Proof.
  intros Hc. split; intros Hx.
  - unfold inventory.DisableService, inventory.LoadState. rewrite Hc.
    by rewrite (proj2 (contains_spec l x) Hx).
  - unfold inventory.EnableService, inventory.LoadState. rewrite Hc.
    rewrite remove_service_spec. by rewrite bool_decide_eq_false_2.
Qed.

Lemma disable_enable_refusals_witness :
  let w := {| inventory.vars_file := inventory.Content ∅;
              inventory.state_file := inventory.Content ["loki"];
              inventory.state_writable := true |} in
  inventory.state_file w = inventory.Content ["loki"] ∧
  ("loki" ∈ ["loki"] →
   inventory.DisableService "loki" w = (Err (ErrAlreadyDisabled "loki"), w))
  ∧ (¬ "loki" ∈ ["loki"] →
     inventory.EnableService "loki" w = (Err (ErrNotDisabled "loki"), w)).
Proof.
  intros w. split; [reflexivity|].
  exact (disable_enable_refusals w ["loki"] "loki" eq_refl).
Defined.

(** Enabling a service takes every occurrence of its name off the
    record and keeps the other names in their order. *)
Theorem EnableService_removes_all w l x :
  inventory.state_file w = inventory.Content l →
  inventory.state_writable w = true → x ∈ l →
  inventory.EnableService x w
  = (Ok (), inventory.with_state w (filter (λ s, s ≠ x) l))
  ∧ ¬ x ∈ filter (λ s, s ≠ x) l.
Proof.
  intros Hc Hw Hx. split.
  - unfold inventory.EnableService, inventory.LoadState. rewrite Hc.
    rewrite remove_service_spec, bool_decide_eq_true_2 by done.
    unfold inventory.writeState. by rewrite Hw.
  - rewrite list_elem_of_filter. tauto.
Qed.

Lemma EnableService_removes_all_witness :
  let w := {| inventory.vars_file := inventory.Content ∅;
              inventory.state_file := inventory.Content ["loki"; "db"; "loki"];
              inventory.state_writable := true |} in
  inventory.state_file w = inventory.Content ["loki"; "db"; "loki"] ∧
  inventory.state_writable w = true ∧ "loki" ∈ ["loki"; "db"; "loki"] ∧
  inventory.EnableService "loki" w
  = (Ok (), inventory.with_state w
              (filter (λ s, s ≠ "loki") ["loki"; "db"; "loki"]))
  ∧ ¬ "loki" ∈ filter (λ s, s ≠ "loki") ["loki"; "db"; "loki"].
Proof.
  intros w.
  assert (H3 : "loki" ∈ ["loki"; "db"; "loki"]) by left.
  split_and!; [reflexivity|reflexivity|exact H3|..];
    apply (EnableService_removes_all w _ "loki" eq_refl eq_refl H3).
Defined.

(** *** Migration of the legacy key *)

Lemma migrate_fold_spec (items : list Value) (l : list string) :
  let l' := foldl (λ acc item,
                     match item with
                     | VStr s => if inventory.contains acc s then acc else acc ++ [s]
                     | _ => acc
                     end) l items in
  (∃ added, l' = l ++ added) ∧
  (∀ s, s ∈ l' ↔ s ∈ l ∨ VStr s ∈ items) ∧
  (NoDup l → NoDup l').
Proof.
  revert l. induction items as [|item items IH]; intros l.
  - cbn [foldl]. split_and!; [exists []; by rewrite app_nil_r| |done].
    intros s. split; [by left|]. by intros [?|?%elem_of_nil].
  - cbn [foldl].
    assert (Hskip : (∀ s, item ≠ VStr s) →
      let l' := foldl (λ acc item,
                         match item with
                         | VStr s => if inventory.contains acc s then acc else acc ++ [s]
                         | _ => acc
                         end) l items in
      (∃ added, l' = l ++ added) ∧
      (∀ s, s ∈ l' ↔ s ∈ l ∨ VStr s ∈ item :: items) ∧ (NoDup l → NoDup l')).
    { intros Hne. destruct (IH l) as (Hpre & Hin & Hnd).
      split_and!; [done| |done]. intros s. rewrite Hin, elem_of_cons.
      split; [tauto|]. intros [?|[?|?]]; [tauto| |tauto]. by destruct (Hne s). }
    destruct item as [| | |s| |]; try (by apply Hskip).
    destruct (inventory.contains l s) eqn:Hc.
    + apply contains_spec in Hc. destruct (IH l) as (Hpre & Hin & Hnd).
      split_and!; [done| |done]. intros s'. rewrite Hin, elem_of_cons.
      split; [tauto|]. intros [?|[Heq|?]]; [tauto| |tauto].
      injection Heq as ->. tauto.
    + apply contains_false in Hc. destruct (IH (l ++ [s])) as ([added Hpre] & Hin & Hnd).
      split_and!.
      * exists (s :: added). rewrite Hpre. by rewrite <- app_assoc.
      * intros s'. rewrite Hin, elem_of_app, list_elem_of_singleton, elem_of_cons.
        split; [intros [[?| ->]|?]; tauto|]. intros [?|[Heq|?]]; [tauto| |tauto].
        injection Heq as ->. tauto.
      * intros Hl. apply Hnd. apply NoDup_app. split_and!; [done| |apply NoDup_singleton].
        intros x Hx ->%list_elem_of_singleton. done.
Qed.

Lemma migrate_items_fixed (disabled : Value) (l : list string) :
  inventory.migrate_items disabled (inventory.migrate_items disabled l)
  = inventory.migrate_items disabled l.
Proof.
  destruct disabled as [| | | |items|]; try done. simpl.
  destruct (migrate_fold_spec items l) as (_ & Hin & _).
  set (l' := foldl _ l items) in *. clearbody l'.
  assert (Hall : ∀ s, VStr s ∈ items → s ∈ l') by (intros s Hs; apply Hin; by right).
  clear Hin. revert Hall. generalize items. clear items.
  induction items as [|item items IH]; intros Hall; [done|].
  cbn [foldl]. destruct item as [| | |s| |];
    try (apply IH; intros s' Hs'; apply Hall; by right).
  rewrite (proj2 (contains_spec l' s)) by (apply Hall; left).
  apply IH. intros s' Hs'. apply Hall. by right.
Qed.

(** With no legacy key in the inventory the migration does nothing: no
    file is read further or written, a missing state file stays missing,
    and no message is printed. *)
Theorem MigrateDisabledServices_nothing_to_migrate w vars :
  inventory.vars_file w = inventory.Content vars →
  vars !! "disabled_services" = None →
  inventory.MigrateDisabledServices w = (Ok (), w, []).
Proof.
  intros Hv Hkey. unfold inventory.MigrateDisabledServices, inventory.LoadVars.
  by rewrite Hv, Hkey.
Qed.

Lemma MigrateDisabledServices_nothing_to_migrate_witness :
  let w := {| inventory.vars_file := inventory.Content samples.inventory_app;
              inventory.state_file := inventory.Missing;
              inventory.state_writable := true |} in
  inventory.vars_file w = inventory.Content samples.inventory_app ∧
  samples.inventory_app !! "disabled_services" = None ∧
  inventory.MigrateDisabledServices w = (Ok (), w, []).
Proof.
  intros w.
  assert (H : samples.inventory_app !! "disabled_services" = None)
    by (vm_compute; reflexivity).
  split_and!; [reflexivity|exact H|].
  exact (MigrateDisabledServices_nothing_to_migrate w _ eq_refl H).
Defined.

(** With a legacy list in the inventory the migration writes a state
    that starts with the names on record, holds in addition exactly the
    strings of the legacy list, has no duplicate when the record had none,
    and is left unchanged by a second migration. *)
Theorem MigrateDisabledServices_union w vars items l :
  inventory.vars_file w = inventory.Content vars →
  vars !! "disabled_services" = Some (VList items) →
  state_holds w l → inventory.state_writable w = true →
  ∃ l',
    inventory.MigrateDisabledServices w
    = (Ok (), inventory.with_state w l', inventory.migrated_messages) ∧
    (∃ added, l' = l ++ added) ∧
    (∀ s, s ∈ l' ↔ s ∈ l ∨ VStr s ∈ items) ∧
    (NoDup l → NoDup l') ∧
    inventory.MigrateDisabledServices (inventory.with_state w l')
    = (Ok (), inventory.with_state w l', inventory.migrated_messages).
Proof.
  intros Hv Hkey Hl Hw.
  exists (inventory.migrate_items (VList items) l).
  destruct (migrate_fold_spec items l) as (Hpre & Hin & Hnd).
  split_and!; [| done..|].
  - unfold inventory.MigrateDisabledServices, inventory.LoadVars.
    rewrite Hv, Hkey, (LoadState_holds w l Hl Hw).
    by rewrite writeState_with_state.
  - unfold inventory.MigrateDisabledServices, inventory.LoadVars.
    cbn [inventory.vars_file inventory.with_state]. rewrite Hv, Hkey.
    unfold inventory.LoadState. cbn [inventory.state_file inventory.with_state].
    rewrite migrate_items_fixed.
    unfold inventory.writeState. cbn [inventory.state_writable inventory.with_state].
    by rewrite Hw.
Qed.

Lemma MigrateDisabledServices_union_witness :
  let vars : gmap string Value :=
    <["disabled_services" := VList [VStr "loki"; VInt 3; VStr "db"; VStr "loki"]]> ∅ in
  let w := {| inventory.vars_file := inventory.Content vars;
              inventory.state_file := inventory.Content ["db"];
              inventory.state_writable := true |} in
  inventory.vars_file w = inventory.Content vars ∧
  vars !! "disabled_services"
  = Some (VList [VStr "loki"; VInt 3; VStr "db"; VStr "loki"]) ∧
  state_holds w ["db"] ∧ inventory.state_writable w = true ∧
  ∃ l',
    inventory.MigrateDisabledServices w
    = (Ok (), inventory.with_state w l', inventory.migrated_messages) ∧
    (∃ added, l' = ["db"] ++ added) ∧
    (∀ s, s ∈ l' ↔ s ∈ ["db"]
                   ∨ VStr s ∈ [VStr "loki"; VInt 3; VStr "db"; VStr "loki"]) ∧
    (NoDup ["db"] → NoDup l') ∧
    inventory.MigrateDisabledServices (inventory.with_state w l')
    = (Ok (), inventory.with_state w l', inventory.migrated_messages).
Proof.
  intros vars w.
  assert (Hk : vars !! "disabled_services"
               = Some (VList [VStr "loki"; VInt 3; VStr "db"; VStr "loki"]))
    by (vm_compute; reflexivity).
  assert (Hl : state_holds w ["db"]) by (by left).
  split_and!; [reflexivity|exact Hk|exact Hl|reflexivity|].
  exact (MigrateDisabledServices_union w vars _ ["db"] eq_refl Hk Hl eq_refl).
Defined.

Example migrate_sample :
  inventory.migrate_items (VList [VStr "loki"; VInt 3; VStr "db"; VStr "loki"]) ["db"]
  = ["db"; "loki"].
Proof. reflexivity. Qed.

(** *** No duplicates on record *)

Lemma disabled_list_with_state w l : disabled_list (inventory.with_state w l) = l.
Proof. done. Qed.

Lemma LoadState_list w r w' :
  inventory.LoadState w = (r, w') →
  disabled_list w' = disabled_list w ∧
  inventory.vars_file w' = inventory.vars_file w ∧
  ∀ l, r = Ok l → l = disabled_list w.
Proof.
  unfold inventory.LoadState, inventory.writeState, disabled_list.
  destruct (inventory.state_file w) as [| | |l0] eqn:Hs.
  - destruct (inventory.state_writable w); intros [= <- <-]; simpl; rewrite ?Hs;
      split_and!; try done. by intros ? [= <-].
  - intros [= <- <-]. by rewrite Hs.
  - intros [= <- <-]. by rewrite Hs.
  - intros [= <- <-]. rewrite Hs. split_and!; [done|done|]. by intros ? [= <-].
Qed.

Lemma writeState_list l w r w' :
  inventory.writeState l w = (r, w') →
  disabled_list w' = l ∨ disabled_list w' = disabled_list w.
Proof.
  unfold inventory.writeState. destruct (inventory.state_writable w);
    intros [= <- <-]; [by left|by right].
Qed.

Lemma writeState_snd l w :
  disabled_list (inventory.writeState l w).2 = l
  ∨ disabled_list (inventory.writeState l w).2 = disabled_list w.
Proof.
  destruct (inventory.writeState l w) as [r w'] eqn:Hwr.
  by apply writeState_list in Hwr.
Qed.

Lemma run_op_NoDup op w :
  NoDup (disabled_list w) → NoDup (disabled_list (inventory.run_op op w)).
Proof.
  intros Hnd. destruct op as [x|x|]; simpl.
  - unfold inventory.DisableService.
    destruct (inventory.LoadState w) as [[l|e] w1] eqn:Hload;
      apply LoadState_list in Hload as (Hl1 & _ & Hl); simpl; [|by rewrite Hl1].
    specialize (Hl l eq_refl). subst l.
    destruct (inventory.contains _ x) eqn:Hc; simpl; [by rewrite Hl1|].
    apply contains_false in Hc.
    destruct (writeState_snd (disabled_list w ++ [x]) w1) as [-> | ->];
      [|by rewrite Hl1].
    apply NoDup_app. split_and!; [done| |apply NoDup_singleton].
    intros s Hs ->%list_elem_of_singleton. done.
  - unfold inventory.EnableService.
    destruct (inventory.LoadState w) as [[l|e] w1] eqn:Hload;
      apply LoadState_list in Hload as (Hl1 & _ & Hl); simpl; [|by rewrite Hl1].
    specialize (Hl l eq_refl). subst l. rewrite remove_service_spec.
    case_bool_decide; simpl; [|by rewrite Hl1].
    destruct (writeState_snd (filter (λ s, s ≠ x) (disabled_list w)) w1)
      as [-> | ->]; [|by rewrite Hl1].
    by apply NoDup_filter.
  - unfold inventory.MigrateDisabledServices.
    destruct (inventory.LoadVars w) as [vars|e]; [|done].
    destruct (vars !! "disabled_services") as [disabled|]; [|done].
    destruct (inventory.LoadState w) as [[l|e] w1] eqn:Hload;
      apply LoadState_list in Hload as (Hl1 & _ & Hl); simpl; [|by rewrite Hl1].
    specialize (Hl l eq_refl). subst l.
    pose proof (writeState_snd (inventory.migrate_items disabled (disabled_list w)) w1)
      as Hws.
    destruct (inventory.writeState _ w1) as [[[]|e] w2]; simpl in *;
      destruct Hws as [-> | ->]; try (by rewrite Hl1);
      destruct disabled as [| | | |items|]; try done;
      by apply (migrate_fold_spec items).
Qed.

(** A record without duplicates has none after any sequence of
    disabling, enabling and migrating, whether the single operations
    succeed or fail. *)
Theorem disabled_services_stay_distinct ops w :
  NoDup (disabled_list w) → NoDup (disabled_list (inventory.run_ops ops w)).
Proof.
  revert w. induction ops as [|op ops IH]; intros w Hnd; [done|].
  apply IH. by apply run_op_NoDup.
Qed.

Lemma disabled_services_stay_distinct_witness :
  let vars : gmap string Value :=
    <["disabled_services" := VList [VStr "loki"; VStr "db"; VStr "loki"]]> ∅ in
  let w := {| inventory.vars_file := inventory.Content vars;
              inventory.state_file := inventory.Content ["db"];
              inventory.state_writable := true |} in
  let ops := [inventory.OpDisable "db"; inventory.OpMigrate;
              inventory.OpEnable "db"; inventory.OpDisable "web";
              inventory.OpMigrate] in
  NoDup (disabled_list w) ∧ NoDup (disabled_list (inventory.run_ops ops w)).
Proof.
  intros vars w ops.
  assert (H : NoDup (disabled_list w)) by apply NoDup_singleton.
  split; [exact H|]. exact (disabled_services_stay_distinct ops w H).
Defined.
